(** * TextProcessor: a shallow embedding of the stylometry pipeline of [code.py]

    The Python class [TextProcessor] tokenizes a text, lemmatizes, filters and
    stems its tokens, collects capitalized words, and counts tokens and
    trigrams.  Every method is translated below under its Python name.

    Conventions.
    - A Python [str] is a [string]; a character is a code point below 256
      (Rocq's [ascii] read as Latin-1).  The character tables [isalnum] and
      [lower_char] are those of Python's [str.isalnum] and [str.lower] on that
      range.
    - [re.findall] is modelled by a small backtracking matcher for the
      fragment of regular expressions the program uses.
    - A [collections.Counter] is an association list in insertion order,
      because [most_common] breaks ties by that order.
    - A Python [set] is a [gset]; a Python [int] parameter is a [Z].
    - The NLTK stopword list and the Porter stemmer are library data and code:
      they are section variables. *)

From Stdlib Require Import ZArith Ascii String List Bool Lia DecimalString.
From stdpp Require Import base option list gmap strings sorting.
Import ListNotations.

Open Scope Z_scope.
Open Scope nat_scope.

(** ** Characters *)

Module Char.

Definition code (c : ascii) : nat := nat_of_ascii c.

Definition between (lo hi : nat) (c : ascii) : bool :=
  (lo <=? code c) && (code c <=? hi).

(** [A-Z] *)
Definition is_upper (c : ascii) : bool := between 65 90 c.

(** [a-z] *)
Definition is_lower (c : ascii) : bool := between 97 122 c.

(** [a-zA-Z] *)
Definition is_alpha (c : ascii) : bool := is_lower c || is_upper c.

(** [0-9] *)
Definition is_digit (c : ascii) : bool := between 48 57 c.

(** [str.isalnum] on code points 0..255. *)
Definition isalnum (c : ascii) : bool :=
  is_digit c || is_alpha c
  || (code c =? 170) || between 178 179 c || (code c =? 181)
  || between 185 186 c || between 188 190 c
  || between 192 214 c || between 216 246 c || between 248 255 c.

(** The class [\w] of a [str] pattern: alphanumeric or underscore. *)
Definition is_word (c : ascii) : bool := isalnum c || (code c =? 95).

(** [str.lower] on one code point of 0..255. *)
Definition lower_char (c : ascii) : ascii :=
  if is_upper c || between 192 214 c || between 216 222 c
  then ascii_of_nat (code c + 32)
  else c.

End Char.

(** ** Strings *)

Definition chars (s : string) : list ascii := list_ascii_of_string s.
Definition of_chars (l : list ascii) : string := string_of_list_ascii l.

(** [s.lower()] *)
Definition lower (s : string) : string := of_chars (map Char.lower_char (chars s)).

(** [len(s)] *)
Definition len (s : string) : nat := String.length s.

(** [s.endswith(suf)] *)
Definition endswith (s suf : string) : bool :=
  (len suf <=? len s) && String.eqb (substring (len s - len suf) (len suf) s) suf.

(** [s[:-k]] for a positive literal [k] *)
Definition drop_last (k : nat) (s : string) : string :=
  substring 0 (len s - k) s.

(** ** Regular expressions

    The program uses two patterns, [\b[a-zA-Z]+\b] and [\b[A-Z][a-zA-Z]*\b].
    An [atom] is one item of such a pattern; a pattern is a list of atoms. *)

Module Re.

Inductive atom : Type :=
| Boundary                      (* \b   *)
| Class (f : ascii → bool)      (* [..] *)
| Star (f : ascii → bool)       (* [..]* , greedy *)
| Plus (f : ascii → bool).      (* [..]+ , greedy *)

Definition regex : Type := list atom.

Definition word_at (c : option ascii) : bool :=
  match c with Some a => Char.is_word a | None => false end.

(** [\b] holds between [prev] and [next] when exactly one of them is a
    word character; the ends of the text count as non-word. *)
Definition at_boundary (prev next : option ascii) : bool :=
  xorb (word_at prev) (word_at next).

(** A matcher is run at a position: [prev] is the character before it and
    [s] the rest of the text.  It returns the length of the match. *)
Definition matcher : Type := option ascii → list ascii → option nat.

(** Greedy repetition with backtracking: take one more character when
    possible, and fall back to the continuation [k] otherwise. *)
Fixpoint star (f : ascii → bool) (k : matcher) (prev : option ascii)
    (s : list ascii) : option nat :=
  let more :=
    match s with
    | c :: s' => if f c then S <$> star f k (Some c) s' else None
    | [] => None
    end in
  match more with
  | Some n => Some n
  | None => k prev s
  end.

Fixpoint match_here (pat : regex) : matcher :=
  match pat with
  | [] => λ _ _, Some 0
  | Boundary :: p => λ prev s,
      if at_boundary prev (head s) then match_here p prev s else None
  | Class f :: p => λ prev s,
      match s with
      | c :: s' => if f c then S <$> match_here p (Some c) s' else None
      | [] => None
      end
  | Star f :: p => star f (match_here p)
  | Plus f :: p => λ prev s,
      match s with
      | c :: s' => if f c then S <$> star f (match_here p) (Some c) s' else None
      | [] => None
      end
  end.

(** The scan of [findall]: try a match at every position from the left;
    after a match the scan resumes where the match ended.  [skip] is the
    number of characters of the current match that remain to be passed.
    (An empty match is recorded and the scan moves on by one character;
    the two patterns of the program never match the empty string.) *)
Fixpoint scan (m : matcher) (skip : nat) (prev : option ascii)
    (s : list ascii) : list (list ascii) :=
  match s with
  | [] =>
      match skip, m prev [] with
      | 0, Some _ => [[]]
      | _, _ => []
      end
  | c :: s' =>
      match skip with
      | S k => scan m k (Some c) s'
      | 0 =>
          match m prev s with
          | Some (S k) => take (S k) s :: scan m k (Some c) s'
          | Some 0 => [] :: scan m 0 (Some c) s'
          | None => scan m 0 (Some c) s'
          end
      end
  end.

(** [re.findall(pat, s)] for a pattern without groups *)
Definition findall (pat : regex) (s : string) : list string :=
  of_chars <$> scan (match_here pat) 0 None (chars s).

End Re.

(** [r'\b[a-zA-Z]+\b'] *)
Definition token_pattern : Re.regex :=
  [Re.Boundary; Re.Plus Char.is_alpha; Re.Boundary].

(** [r'\b[A-Z][a-zA-Z]*\b'] *)
Definition entity_pattern : Re.regex :=
  [Re.Boundary; Re.Class Char.is_upper; Re.Star Char.is_alpha; Re.Boundary].

(** ** TextProcessor._tokenize *)

Definition _tokenize (raw_text : string) : list string :=
  Re.findall token_pattern (lower raw_text).

(** ** TextProcessor._simple_lemmatize *)

Definition _simple_lemmatize (word : string) : string :=
  if endswith word "ies" && (3 <? len word) then drop_last 3 word +:+ "y"
  else if endswith word "es" then drop_last 2 word
  else if endswith word "ed" && (4 <? len word) then drop_last 2 word
  else if endswith word "ing" && (5 <? len word) then drop_last 3 word
  else if endswith word "s" && (3 <? len word) then drop_last 1 word
  else word.

(** *** The lemmatizer as the specification words it

    A rule has a suffix, a length the word must exceed, and a replacement
    for the suffix.  The rules are tried in order and the first that
    matches is applied, alone. *)

Module LemmaSpec.

Record rule : Type := Rule {
  suffix : string;
  longer_than : option nat;
  replacement : string
}.

Definition rules : list rule :=
  [ Rule "ies" (Some 3) "y";
    Rule "es" None "";
    Rule "ed" (Some 4) "";
    Rule "ing" (Some 5) "";
    Rule "s" (Some 3) "" ].

Definition long_enough (r : rule) (w : string) : bool :=
  match longer_than r with
  | Some n => n <? len w
  | None => true
  end.

(** [strip suf w] is the [p] with [w = p ++ suf], when [w] ends with [suf]. *)
Fixpoint strip (suf w : string) : option string :=
  if String.eqb w suf then Some ""
  else
    match w with
    | EmptyString => None
    | String c w' => String c <$> strip suf w'
    end.

Definition fires (r : rule) (w : string) : option string :=
  if long_enough r w
  then (λ p, p +:+ replacement r) <$> strip (suffix r) w
  else None.

Fixpoint first_match (rs : list rule) (w : string) : string :=
  match rs with
  | [] => w
  | r :: rs' =>
      match fires r w with
      | Some w' => w'
      | None => first_match rs' w
      end
  end.

Definition lemmatize : string → string := first_match rules.

End LemmaSpec.

(** ** Named entities *)

Definition blacklist : gset string :=
  {[ "The"; "And"; "In"; "A"; "But"; "As"; "With"; "For"; "To"; "At"; "On" ]}.

(** TextProcessor._extract_named_entities *)
Definition _extract_named_entities (raw_text : string) : gset string :=
  let candidates := Re.findall entity_pattern raw_text in
  list_to_set (filter (λ ent, ent ∉ blacklist) candidates).

(** ** Maximal runs

    [runs f s] lists the maximal runs of characters of [s] that satisfy [f],
    from left to right.  The specification speaks of such runs; the program
    never computes them. *)

Fixpoint runs (f : ascii → bool) (s : list ascii) : list (list ascii) :=
  match s with
  | [] => []
  | c :: s' =>
      if f c then
        match s' with
        | c' :: _ =>
            if f c' then
              match runs f s' with
              | r :: rs => (c :: r) :: rs
              | [] => [[c]]
              end
            else [c] :: runs f s'
        | [] => [[c]]
        end
      else runs f s'
  end.


(** The entities as the specification words them: the distinct maximal runs
    of letters of the raw text that start with an uppercase letter, minus the
    blacklist. *)
Definition starts_upper (r : list ascii) : bool :=
  match r with c :: _ => Char.is_upper c | [] => false end.

Definition capitalized_letter_runs (raw_text : string) : gset string :=
  list_to_set (of_chars <$> filter (λ r, starts_upper r)
                          (runs Char.is_alpha (chars raw_text))) ∖ blacklist.

(** A whole word: a maximal run of word characters. *)
Definition words (s : string) : list (list ascii) :=
  runs Char.is_word (chars s).

(** A word made of ASCII letters only. *)
Definition all_alpha (r : list ascii) : bool := forallb Char.is_alpha r.

(** A word made of ASCII letters only, the first one uppercase. *)
Definition capitalized (r : list ascii) : bool :=
  starts_upper r && all_alpha r.

(** ** collections.Counter

    A counter is the list of its (key, count) items in insertion order, the
    order in which a Python dict iterates. *)

Section Counter.
Context {K : Type} `{EqDecision K}.

Definition counter : Type := list (K * nat).

(** [c[k] = c.get(k, 0) + 1]: a known key keeps its place, a new key is
    appended. *)
Fixpoint incr (k : K) (c : counter) : counter :=
  match c with
  | [] => [(k, 1)]
  | (k', v) :: c' =>
      if decide (k = k') then (k', S v) :: c' else (k', v) :: incr k c'
  end.

(** [Counter(iterable)] *)
Definition Counter (l : list K) : counter :=
  foldl (λ c k, incr k c) [] l.

(** [c[k]], zero for a missing key *)
Fixpoint count_of (k : K) (c : counter) : nat :=
  match c with
  | [] => 0
  | (k', v) :: c' => if decide (k = k') then v else count_of k c'
  end.

Definition keys (c : counter) : list K := fst <$> c.
Definition total (c : counter) : nat := foldr (λ kv acc, kv.2 + acc) 0 c.

(** [sorted(items, key=itemgetter(1), reverse=True)]: a stable sort, so
    items of equal count keep their original order. *)
Fixpoint insert_desc (x : K * nat) (l : list (K * nat)) : list (K * nat) :=
  match l with
  | [] => [x]
  | y :: l' => if x.2 <? y.2 then y :: insert_desc x l' else x :: y :: l'
  end.

Fixpoint sorted_desc (l : list (K * nat)) : list (K * nat) :=
  match l with
  | [] => []
  | x :: l' => insert_desc x (sorted_desc l')
  end.

(** [max(items, key=itemgetter(1), default=sentinel)]: the first item of
    greatest count. *)
Fixpoint max_item (l : list (K * nat)) : option (K * nat) :=
  match l with
  | [] => None
  | x :: l' =>
      match max_item l' with
      | Some y => if x.2 <? y.2 then Some y else Some x
      | None => Some x
      end
  end.

(** [heapq.nlargest(n, items, key=itemgetter(1))].  The library takes a
    shortcut for [n == 1] and for [n >= len(items)]; otherwise it selects
    with a heap, which returns nothing for [n <= 0] and else what
    [sorted(items, key=key, reverse=True)[:n]] returns. *)
Definition nlargest (n : Z) (items : list (K * nat)) : list (K * nat) :=
  if (n =? 1)%Z then
    match max_item items with Some x => [x] | None => [] end
  else if (Z.of_nat (length items) <=? n)%Z then
    take (Z.to_nat n) (sorted_desc items)
  else if (n <=? 0)%Z then []
  else take (Z.to_nat n) (sorted_desc items).

(** [Counter.most_common(n)] for an integer [n] *)
Definition most_common (n : Z) (c : counter) : list (K * nat) :=
  nlargest n c.

End Counter.

Arguments counter K : clear implicits.

(** ** zip

    [zip] applied to a list of lists (an unpacked argument list): the
    tuples of the elements at the same index, up to the end of the shortest
    list; nothing for no list at all.  A tuple is the
    list of its components. *)

Section Zip.
Context {A : Type}.

(** The first elements of all the lists, when none is empty. *)
Fixpoint heads (ls : list (list A)) : option (list A) :=
  match ls with
  | [] => Some []
  | [] :: _ => None
  | (x :: _) :: ls' => (x ::.) <$> heads ls'
  end.

Fixpoint zip_cons (l : list A) (ls : list (list A)) : list (list A) :=
  match l with
  | [] => []
  | x :: l' =>
      match heads ls with
      | Some hs => (x :: hs) :: zip_cons l' (tail <$> ls)
      | None => []
      end
  end.

Definition zip_star (ls : list (list A)) : list (list A) :=
  match ls with
  | [] => []
  | l :: ls' => zip_cons l ls'
  end.

End Zip.

(** [range(n)] *)
Definition range (n : Z) : list nat := seq 0 (Z.to_nat n).

(** TextProcessor._compute_trigrams, as a function of [self.processed_tokens] *)
Definition _compute_trigrams (processed_tokens : list string) (n : Z)
    : counter (list string) :=
  if (Z.of_nat (length processed_tokens) <? n)%Z then Counter []
  else
    let trigrams := zip_star ((λ i, drop i processed_tokens) <$> range n) in
    Counter trigrams.

(** The windows as the specification words them: every contiguous window of
    [n] consecutive tokens, sliding by one. *)
Definition windows (n : nat) (l : list string) : list (list string) :=
  (λ i, take n (drop i l)) <$> seq 0 (length l + 1 - n).

(** ** The processor *)

(** The allow-list of [_process_tokens] *)
Definition preserved : gset string := {[ "romeo"; "juliet"; "verona" ]}.

Record TextProcessor : Type := mkTextProcessor {
  name : string;
  raw_text : string;
  tokens : list string;
  processed_tokens : list string;
  named_entities : gset string;
  token_freq : counter string;
  trigram_freq : counter (list string)
}.

Section Pipeline.

(** [stopwords.words('english')], the NLTK word list *)
Variable english_stopwords : list string.

(** [stemmer.stem], the NLTK Porter stemmer *)
Variable stem : string → string.

(** [stop_words = set(stopwords.words('english'))] *)
Definition stop_words : gset string := list_to_set english_stopwords.

(** TextProcessor._process_tokens, as a function of [self.tokens] *)
Definition _process_tokens (tokens : list string) : list string :=
  let lemmatized := _simple_lemmatize <$> tokens in
  let no_stops :=
    filter (λ t, t ∉ stop_words ∨ t ∈ preserved) lemmatized in
  stem <$> no_stops.

(** The normalizer as the specification words it: token by token,
    lemmatize, drop a stopword that is not preserved, stem what is left. *)
Fixpoint normalize (tokens : list string) : list string :=
  match tokens with
  | [] => []
  | t :: ts =>
      let l := LemmaSpec.lemmatize t in
      if decide (l ∈ stop_words ∧ l ∉ preserved) then normalize ts
      else stem l :: normalize ts
  end.

(** TextProcessor.__init__ *)
Definition __init__ (text : string) (name : string) : TextProcessor :=
  let tokens := _tokenize text in
  let processed_tokens := _process_tokens tokens in
  let named_entities := _extract_named_entities text in
  let token_freq := Counter processed_tokens in
  let trigram_freq := _compute_trigrams processed_tokens 3 in
  mkTextProcessor name text tokens processed_tokens named_entities
    token_freq trigram_freq.

End Pipeline.

(** The default of the parameter [name] *)
Definition default_name : string := "Unknown".

(** ** Methods

    A method runs in a world made of the processor it is called on and of
    the console.  [read] is an attribute read and [print] writes one line;
    the methods below are built from these two only, as the source is. *)

Record world : Type := World {
  self : TextProcessor;
  stdout : list string
}.

Definition M (A : Type) : Type := world → A * world.

#[global] Instance M_ret : MRet M := λ A a w, (a, w).

#[global] Instance M_bind : MBind M :=
  λ A B k m w, let (a, w') := m w in k a w'.

Definition read {A} (field : TextProcessor → A) : M A :=
  λ w, (field (self w), w).

Definition print (line : string) : M unit :=
  λ w, (tt, World (self w) (stdout w ++ [line])).

(** [for x in l: body] *)
Fixpoint for_each {A} (l : list A) (body : A → M unit) : M unit :=
  match l with
  | [] => mret tt
  | x :: l' => body x;; for_each l' body
  end.

(** TextProcessor.top_tokens *)
Definition top_tokens (n : Z) : M (list (string * nat)) :=
  c ← read token_freq; mret (most_common n c).

(** TextProcessor.top_trigrams *)
Definition top_trigrams (k : Z) : M (list (list string * nat)) :=
  c ← read trigram_freq; mret (most_common k c).

(** *** Formatting *)

(** [str(n)] for a natural number *)
Definition str_of_nat (n : nat) : string :=
  NilEmpty.string_of_uint (Nat.to_uint n).

(** [sep.join(l)] *)
Definition join (sep : string) (l : list string) : string :=
  String.concat sep l.

(** [repr(s)] for a string of letters, which is what an entity is *)
Definition repr_str (s : string) : string := "'" +:+ s +:+ "'".

(** [repr(l)] for a list of such strings *)
Definition repr_list (l : list string) : string :=
  "[" +:+ join ", " (repr_str <$> l) +:+ "]".

(** [sorted(s)] for a set of strings; strings compare by code points *)
Definition sorted_strings (s : gset string) : list string :=
  merge_sort String.le (elements s).

Definition newline : string := String (ascii_of_nat 10) EmptyString.

(** TextProcessor.summary *)
Definition summary : M unit :=
  nm ← read name;
  print (newline +:+ "=== " +:+ nm +:+ " ===");;
  toks ← read tokens;
  print ("Total tokens (raw): " +:+ str_of_nat (length toks));;
  ents ← read named_entities;
  print ("Unique named entities (" +:+ str_of_nat (size ents) +:+ "): "
         +:+ repr_list (sorted_strings ents));;
  print "Top 20 tokens (after processing):";;
  top ← top_tokens 20;
  for_each top (λ '(token, count),
    print ("  " +:+ token +:+ ": " +:+ str_of_nat count));;
  print "Top 10 trigrams:";;
  top3 ← top_trigrams 10;
  for_each top3 (λ '(trigram, count),
    print ("  " +:+ join " " trigram +:+ ": " +:+ str_of_nat count)).

(** A call of a public method, and a sequence of such calls on one object *)
Inductive call : Type :=
| TopTokens (n : Z)
| TopTrigrams (k : Z)
| Summary.

Definition run_call (c : call) : M unit :=
  match c with
  | TopTokens n => top_tokens n;; mret tt
  | TopTrigrams k => top_trigrams k;; mret tt
  | Summary => summary
  end.

Definition run_calls (cs : list call) : M unit := for_each cs run_call.

(** The world right after construction: the new object, nothing printed *)
Definition after_init (p : TextProcessor) : world := World p [].

(** ** Auxiliary functions of the proofs *)

(** The longest prefix of [s] whose characters satisfy [f], and what follows. *)
Fixpoint run_of (f : ascii → bool) (s : list ascii) : list ascii :=
  match s with
  | c :: s' => if f c then c :: run_of f s' else []
  | [] => []
  end.

Fixpoint after_run (f : ascii → bool) (s : list ascii) : list ascii :=
  match s with
  | c :: s' => if f c then after_run f s' else s
  | [] => []
  end.

(** The shape of a word that [\b C1 C2* \b] matches: its first character in
    [C1], the others in [C2]. *)
Definition word_shape (C1 C2 : ascii → bool) (r : list ascii) : bool :=
  match r with
  | c :: r' => C1 c && forallb C2 r'
  | [] => false
  end.

(** The number of occurrences of [x] in [l] *)
Definition occurrences {A} `{EqDecision A} (x : A) (l : list A) : nat :=
  length (filter (λ y, y = x) l).

(** The counts of a list of items are in non-increasing order. *)
Definition descending {K} (l : list (K * nat)) : Prop :=
  Sorted (λ a b, b.2 ≤ a.2) l.

(** A computation that leaves the processor as it found it. *)
Definition preserves_self {A} (m : M A) : Prop :=
  ∀ w, self (m w).2 = self w.

(** The lines that [summary] prints for a processor, in order. *)
Definition token_line (kv : string * nat) : string :=
  "  " +:+ kv.1 +:+ ": " +:+ str_of_nat kv.2.

Definition trigram_line (kv : list string * nat) : string :=
  "  " +:+ join " " kv.1 +:+ ": " +:+ str_of_nat kv.2.

Definition report (p : TextProcessor) : list string :=
  [ newline +:+ "=== " +:+ name p +:+ " ===";
    "Total tokens (raw): " +:+ str_of_nat (length (tokens p));
    "Unique named entities (" +:+ str_of_nat (size (named_entities p))
      +:+ "): " +:+ repr_list (sorted_strings (named_entities p));
    "Top 20 tokens (after processing):" ]
  ++ (token_line <$> most_common 20 (token_freq p))
  ++ ["Top 10 trigrams:"]
  ++ (trigram_line <$> most_common 10 (trigram_freq p)).

(** What a call prints. *)
Definition printed (p : TextProcessor) (c : call) : list string :=
  match c with
  | Summary => report p
  | TopTokens _ | TopTrigrams _ => []
  end.

(** The elements of a list in the order of their first occurrence. *)
Definition first_occurrences {A} `{EqDecision A} (l : list A) : list A :=
  reverse (remove_dups (reverse l)).

(** The lemmatizer's tests: whether some rule applies to the word. *)
Definition some_rule_applies (word : string) : bool :=
  endswith word "ies" && (3 <? len word)
  || endswith word "es"
  || endswith word "ed" && (4 <? len word)
  || endswith word "ing" && (5 <? len word)
  || endswith word "s" && (3 <? len word).

(** * Facts *)

(** ** Characters and strings *)

Lemma chars_of_chars l : chars (of_chars l) = l.
Proof. apply list_ascii_of_string_of_list_ascii. Qed.

Lemma of_chars_chars s : of_chars (chars s) = s.
Proof. apply string_of_list_ascii_of_string. Qed.

Lemma of_chars_nil_inv l : of_chars l = "" → l = [].
Proof. by destruct l. Qed.

Ltac each_char c := destruct c as [[] [] [] [] [] [] [] []]; vm_compute; try done.

Lemma upper_is_alpha c : Char.is_upper c = true → Char.is_alpha c = true.
Proof. each_char c. Qed.

Lemma alpha_is_word c : Char.is_alpha c = true → Char.is_word c = true.
Proof. each_char c. Qed.

Lemma word_lower_char c : Char.is_word (Char.lower_char c) = Char.is_word c.
Proof. each_char c. Qed.

Lemma alpha_lower_char c : Char.is_alpha (Char.lower_char c) = Char.is_alpha c.
Proof. each_char c. Qed.

Lemma alpha_lowered c :
  Char.is_alpha c = true → Char.is_lower (Char.lower_char c) = true.
Proof. each_char c. Qed.

Lemma lower_is_alpha c : Char.is_lower c = true → Char.is_alpha c = true.
Proof. each_char c. Qed.

(** ** Maximal runs *)

Section Runs.
Variable f : ascii → bool.

Lemma runs_skip c s : f c = false → runs f (c :: s) = runs f s.
Proof. intros Hc. simpl. by rewrite Hc. Qed.

Lemma runs_cons2 c d s :
  runs f (c :: d :: s) =
  if f c then
    if f d then
      match runs f (d :: s) with r :: rs => (c :: r) :: rs | [] => [[c]] end
    else [c] :: runs f (d :: s)
  else runs f (d :: s).
Proof. reflexivity. Qed.

Lemma runs_start c s :
  f c = true → runs f (c :: s) = (c :: run_of f s) :: runs f (after_run f s).
Proof.
  revert c. induction s as [|d s IH]; intros c Hc.
  - simpl. by rewrite Hc.
  - rewrite runs_cons2, Hc. cbn [run_of after_run]. destruct (f d) eqn:Hd.
    + by rewrite (IH d Hd).
    + done.
Qed.

Lemma run_of_all s : forallb f (run_of f s) = true.
Proof. induction s as [|c s IH]; simpl; [done|]. destruct (f c) eqn:Hc; simpl; [|done]. by rewrite Hc. Qed.

Lemma take_run_of s : take (length (run_of f s)) s = run_of f s.
Proof. induction s as [|c s IH]; simpl; [done|]. destruct (f c); simpl; by f_equal. Qed.

Lemma after_run_length s : length (after_run f s) ≤ length s.
Proof. induction s as [|c s IH]; simpl; [done|]. destruct (f c); simpl; lia. Qed.

Lemma runs_all s : Forall (λ r, r ≠ [] ∧ forallb f r = true) (runs f s).
Proof.
  induction s as [s IH] using (induction_ltof1 _ (@length ascii)).
  unfold ltof in IH. destruct s as [|c s]; [constructor|].
  destruct (f c) eqn:Hc.
  - rewrite (runs_start _ _ Hc). constructor.
    + split; [done|]. simpl. by rewrite Hc, run_of_all.
    + apply IH. simpl. pose proof (after_run_length s). lia.
  - rewrite (runs_skip _ _ Hc). apply IH. simpl. lia.
Qed.

End Runs.

Lemma runs_ext (f g : ascii → bool) s :
  Forall (λ c, f c = g c) s → runs f s = runs g s.
Proof.
  induction 1 as [|c s Hc Hs IH]; [done|].
  cbn [runs]. rewrite Hc, IH. destruct Hs as [|d s' Hd _]; [done|]. by rewrite Hd.
Qed.

Lemma runs_fmap (f : ascii → bool) (h : ascii → ascii) (s : list ascii) :
  (∀ c, f (h c) = f c) → runs f (map h s) = map (map h) (runs f s).
Proof.
  intros Hh. induction s as [|c s IH]; [done|].
  destruct s as [|d s].
  - simpl. rewrite Hh. by destruct (f c).
  - change (map h (c :: d :: s)) with (h c :: h d :: map h s).
    rewrite !runs_cons2, !Hh.
    change (h d :: map h s) with (map h (d :: s)). rewrite IH.
    destruct (f c), (f d); try done. by destruct (runs f (d :: s)).
Qed.

Lemma filter_bool_cons {A} (p : A → bool) x (l : list A) :
  filter (λ y, p y) (x :: l) =
  if p x then x :: filter (λ y, p y) l else filter (λ y, p y) l.
Proof.
  rewrite filter_cons. by destruct (p x) eqn:Hp; case_decide.
Qed.

Lemma filter_bool_ext {A} (p q : A → bool) (l : list A) :
  Forall (λ x, p x = q x) l → filter (λ y, p y) l = filter (λ y, q y) l.
Proof.
  induction 1 as [|x l Hx _ IH]; [done|].
  by rewrite !filter_bool_cons, Hx, IH.
Qed.

(** ** The matcher on whole words *)

Section Scan.
Variable m : Re.matcher.
Variable shape : list ascii → bool.

Hypothesis at_word_start : ∀ prev c s,
  Re.word_at prev = false → Char.is_word c = true →
  m prev (c :: s) =
  if shape (c :: run_of Char.is_word s)
  then Some (S (length (run_of Char.is_word s))) else None.

Hypothesis inside_word : ∀ prev c s,
  Re.word_at prev = true → Char.is_word c = true → m prev (c :: s) = None.

Hypothesis at_non_word : ∀ prev s,
  Re.word_at (head s) = false → m prev s = None.

Let found (s : list ascii) : list (list ascii) :=
  filter (λ r, shape r) (runs Char.is_word s).

Lemma scan_states s :
  (∀ prev, Re.word_at prev = false → Re.scan m 0 prev s = found s)
  ∧ (∀ prev, Re.word_at prev = true →
       Re.scan m 0 prev s = found (after_run Char.is_word s))
  ∧ (∀ prev, Re.word_at prev = true →
       Re.scan m (length (run_of Char.is_word s)) prev s
       = found (after_run Char.is_word s)).
Proof.
  induction s as [|c s (IHa & IHb & IHc)].
  - assert (∀ prev, Re.scan m 0 prev [] = []) as Hnil.
    { intros prev. simpl. by rewrite at_non_word. }
    repeat split; intros; apply Hnil.
  - assert (∀ prev, Re.word_at prev = true →
       Re.scan m 0 prev (c :: s) = found (after_run Char.is_word (c :: s)))
      as Hb.
    { intros prev Hprev. cbn [Re.scan after_run].
      destruct (Char.is_word c) eqn:Hc.
      - rewrite inside_word by done. by apply IHb.
      - rewrite at_non_word by done. unfold found.
        rewrite runs_skip by done. by apply IHa. }
    repeat split; [|done|].
    + intros prev Hprev. cbn [Re.scan]. unfold found.
      destruct (Char.is_word c) eqn:Hc.
      * rewrite at_word_start, runs_start, filter_bool_cons by done.
        destruct (shape _).
        -- f_equal; [|by apply IHc].
           change (take _ _) with
             (c :: take (length (run_of Char.is_word s)) s).
           by rewrite take_run_of.
        -- by apply IHb.
      * rewrite at_non_word, runs_skip by done. by apply IHa.
    + intros prev Hprev. cbn [run_of]. destruct (Char.is_word c) eqn:Hc.
      * cbn [length Re.scan after_run]. rewrite Hc. by apply IHc.
      * rewrite <- (Hb prev Hprev). done.
Qed.

Lemma scan_words s : Re.scan m 0 None s = found s.
Proof. by apply scan_states. Qed.

End Scan.

Section WordPattern.
Variables C1 C2 : ascii → bool.
Hypothesis C1_word : ∀ c, C1 c = true → Char.is_word c = true.
Hypothesis C2_word : ∀ c, C2 c = true → Char.is_word c = true.

Let word_matcher : Re.matcher :=
  Re.match_here [Re.Boundary; Re.Class C1; Re.Star C2; Re.Boundary].

(** Backtracking never helps here: inside a word there is no boundary, so
    the repetition must run to the end of the word. *)
Lemma star_to_word_end prev s :
  Re.word_at prev = true →
  Re.star C2 (Re.match_here [Re.Boundary]) prev s =
  if forallb C2 (run_of Char.is_word s)
  then Some (length (run_of Char.is_word s)) else None.
Proof.
  revert prev. induction s as [|c s IH]; intros prev Hprev.
  - simpl. unfold Re.at_boundary. by rewrite Hprev.
  - cbn [Re.star run_of]. destruct (C2 c) eqn:Hc.
    + rewrite (C2_word _ Hc). cbn [forallb length]. rewrite Hc.
      rewrite IH by (simpl; auto). simpl.
      destruct (forallb _ _); [done|].
      simpl. unfold Re.at_boundary. simpl. by rewrite Hprev, (C2_word _ Hc).
    + simpl. unfold Re.at_boundary. rewrite Hprev. simpl.
      destruct (Char.is_word c); simpl; [|done]. by rewrite Hc.
Qed.

Lemma word_matcher_start prev c s :
  Re.word_at prev = false → Char.is_word c = true →
  word_matcher prev (c :: s) =
  if word_shape C1 C2 (c :: run_of Char.is_word s)
  then Some (S (length (run_of Char.is_word s))) else None.
Proof.
  intros Hprev Hc. unfold word_matcher. cbn [Re.match_here head].
  unfold Re.at_boundary at 1. rewrite Hprev. simpl Re.word_at. rewrite Hc.
  simpl xorb. cbn iota. unfold word_shape. destruct (C1 c); [|done].
  change (Re.star C2 _) with (Re.star C2 (Re.match_here [Re.Boundary])).
  rewrite star_to_word_end by done. simpl. by destruct (forallb _ _).
Qed.

Lemma word_matcher_inside prev c s :
  Re.word_at prev = true → Char.is_word c = true →
  word_matcher prev (c :: s) = None.
Proof.
  intros Hprev Hc. unfold word_matcher. cbn [Re.match_here head].
  unfold Re.at_boundary. rewrite Hprev. simpl. by rewrite Hc.
Qed.

Lemma word_matcher_non_word prev s :
  Re.word_at (head s) = false → word_matcher prev s = None.
Proof.
  intros Hs. unfold word_matcher. cbn [Re.match_here].
  destruct (Re.at_boundary _ _); [|done].
  destruct s as [|c s]; [done|]. simpl in Hs.
  destruct (C1 c) eqn:Hc; [|done]. by rewrite (C1_word _ Hc) in Hs.
Qed.

Lemma scan_word_pattern s :
  Re.scan word_matcher 0 None s =
  filter (λ r, word_shape C1 C2 r) (runs Char.is_word s).
Proof.
  apply scan_words; auto using word_matcher_start, word_matcher_inside,
    word_matcher_non_word.
Qed.

End WordPattern.

(** ** What the two patterns find *)

Lemma filter_bool_map {A B} (p : B → bool) (h : A → B) (l : list A) :
  filter (λ y, p y) (map h l) = map h (filter (λ x, p (h x)) l).
Proof.
  induction l as [|x l IH]; [done|].
  cbn [map]. rewrite !filter_bool_cons, IH. by destruct (p (h x)).
Qed.


Lemma findall_entity_pattern s :
  Re.findall entity_pattern s = of_chars <$> filter (λ r, capitalized r) (words s).
Proof.
  unfold Re.findall, entity_pattern, words.
  rewrite (scan_word_pattern _ _
             (λ c Hc, alpha_is_word _ (upper_is_alpha _ Hc)) alpha_is_word).
  f_equal. apply filter_bool_ext, Forall_forall. intros [|c r] _; [done|].
  unfold capitalized, all_alpha. simpl.
  destruct (Char.is_upper c) eqn:Hc; [|done]. by rewrite (upper_is_alpha _ Hc).
Qed.

Lemma findall_token_pattern s :
  Re.findall token_pattern s = of_chars <$> filter (λ r, all_alpha r) (words s).
Proof.
  unfold Re.findall, token_pattern, words.
  change (Re.match_here [Re.Boundary; Re.Plus Char.is_alpha; Re.Boundary])
    with (Re.match_here [Re.Boundary; Re.Class Char.is_alpha;
                         Re.Star Char.is_alpha; Re.Boundary]).
  rewrite (scan_word_pattern _ _ alpha_is_word alpha_is_word).
  f_equal. apply filter_bool_ext.
  eapply Forall_impl; [apply runs_all|]. by intros [|c r] [Hne _].
Qed.

Lemma all_alpha_lower r : all_alpha (map Char.lower_char r) = all_alpha r.
Proof.
  unfold all_alpha. induction r as [|c r IH]; [done|].
  simpl. by rewrite alpha_lower_char, IH.
Qed.

Lemma words_lower s : words (lower s) = map (map Char.lower_char) (words s).
Proof.
  unfold words, lower. rewrite chars_of_chars.
  apply runs_fmap, word_lower_char.
Qed.

Lemma lower_of_chars r : lower (of_chars r) = of_chars (map Char.lower_char r).
Proof. unfold lower. by rewrite chars_of_chars. Qed.

(** The tokens are the whole words of the raw text that are made of ASCII
    letters only, each lowercased. *)
Lemma tokenize_words raw_text :
  _tokenize raw_text =
  (λ r, lower (of_chars r)) <$> filter (λ r, all_alpha r) (words raw_text).
Proof.
  unfold _tokenize. rewrite findall_token_pattern, words_lower, filter_bool_map.
  rewrite (filter_bool_ext _ all_alpha) by (apply Forall_forall; intros r _; apply all_alpha_lower).
  induction (filter _ _) as [|r l IH]; [done|].
  cbn [map fmap list_fmap]. by rewrite lower_of_chars, <- IH.
Qed.




Lemma tokens_lowercase raw_text :
  Forall (λ t, t ≠ "" ∧ forallb Char.is_lower (chars t) = true)
         (_tokenize raw_text).
Proof.
  rewrite tokenize_words. apply Forall_fmap, Forall_forall. intros r Hr.
  apply list_elem_of_filter in Hr as [Halpha Hr]. simpl.
  pose proof (runs_all Char.is_word (chars raw_text)) as Hall.
  rewrite Forall_forall in Hall. destruct (Hall r Hr) as [Hne _].
  rewrite lower_of_chars. split.
  - intros Heq. apply of_chars_nil_inv in Heq. by destruct r.
  - rewrite chars_of_chars. apply Is_true_true in Halpha.
    unfold all_alpha in Halpha. clear -Halpha.
    induction r as [|c r IH]; [done|]. simpl in *.
    apply andb_true_iff in Halpha as [Hc Hr].
    by rewrite (alpha_lowered _ Hc), IH.
Qed.

(** ** Suffixes *)

Lemma substring_all w : substring 0 (len w) w = w.
Proof. induction w as [|c w IH]; [done|]. simpl. by rewrite IH. Qed.

Lemma append_cons c p q : String c p +:+ q = String c (p +:+ q).
Proof. reflexivity. Qed.

Lemma append_empty_r w : w +:+ "" = w.
Proof. induction w as [|c w IH]; [done|]. by rewrite append_cons, IH. Qed.

Lemma len_append p q : len (p +:+ q) = len p + len q.
Proof.
  induction p as [|c p IH]; [done|]. rewrite append_cons. simpl. by rewrite IH.
Qed.

(** [strip] finds the prefix: it succeeds with [p] exactly when the word is
    [p] followed by the suffix. *)
Lemma strip_spec suf w p : LemmaSpec.strip suf w = Some p ↔ w = p +:+ suf.
Proof.
  split.
  - revert p. induction w as [|c w IH]; intros p; cbn [LemmaSpec.strip].
    + destruct (String.eqb_spec "" suf) as [<-|Hne]; [|done]. by intros [= <-].
    + destruct (String.eqb_spec (String c w) suf) as [<-|Hne].
      * by intros [= <-].
      * destruct (LemmaSpec.strip suf w) as [q|]; [|done].
        intros [= <-]. by rewrite append_cons, <- (IH q).
  - intros ->. induction p as [|c p IH].
    + change ("" +:+ suf) with suf.
      destruct suf; cbn [LemmaSpec.strip]; by rewrite String.eqb_refl.
    + rewrite append_cons. cbn [LemmaSpec.strip].
      destruct (String.eqb_spec (String c (p +:+ suf)) suf) as [Heq|Hne].
      * apply (f_equal len) in Heq. simpl in Heq. rewrite len_append in Heq. lia.
      * by rewrite IH.
Qed.

(** [strip] agrees with the test and the slice of the program. *)
Lemma strip_endswith suf w :
  LemmaSpec.strip suf w =
  if endswith w suf then Some (drop_last (len suf) w) else None.
Proof.
  induction w as [|c w IH].
  - unfold endswith, drop_last. simpl.
    destruct suf as [|d suf]; simpl; [done|].
    by destruct (String.eqb_spec "" (String d suf)).
  - cbn [LemmaSpec.strip].
    destruct (String.eqb_spec (String c w) suf) as [<-|Hne].
    + unfold endswith, drop_last. rewrite Nat.leb_refl, Nat.sub_diag.
      by rewrite substring_all, String.eqb_refl.
    + rewrite IH. unfold endswith, drop_last.
      change (len (String c w)) with (S (len w)).
      destruct (Nat.leb_spec (len suf) (len w)) as [Hle|Hgt].
      * replace (len suf <=? S (len w)) with true
          by (symmetry; apply Nat.leb_le; lia).
        replace (S (len w) - len suf) with (S (len w - len suf)) by lia.
        simpl. by destruct (String.eqb _ suf).
      * cbn [andb fmap option_fmap option_map].
        destruct (Nat.leb_spec (len suf) (S (len w))) as [Hle|Hgt']; [|done].
        replace (S (len w) - len suf) with 0 by lia.
        replace (len suf) with (len (String c w)) by (simpl; lia).
        rewrite substring_all. by destruct (String.eqb_spec (String c w) suf).
Qed.

Lemma endswith_len w suf : endswith w suf = true → len suf ≤ len w.
Proof.
  unfold endswith. intros [H _]%andb_true_iff. by apply Nat.leb_le.
Qed.

(** The program's chain of tests is the rule list of the specification. *)
Lemma simple_lemmatize_rules word :
  _simple_lemmatize word = LemmaSpec.lemmatize word.
Proof.
  unfold LemmaSpec.lemmatize, LemmaSpec.rules, LemmaSpec.first_match,
    LemmaSpec.fires, LemmaSpec.long_enough, _simple_lemmatize.
  cbn [LemmaSpec.suffix LemmaSpec.longer_than LemmaSpec.replacement].
  rewrite !strip_endswith. change (len "ies") with 3. change (len "es") with 2.
  change (len "ed") with 2. change (len "ing") with 3. change (len "s") with 1.
  destruct (endswith word "ies") eqn:H1, (endswith word "es") eqn:H2,
    (endswith word "ed") eqn:H3, (endswith word "ing") eqn:H4,
    (endswith word "s") eqn:H5;
    repeat match goal with
    | H : endswith _ _ = true |- _ => apply endswith_len in H; simpl in H
    | H : endswith _ _ = false |- _ => clear H
    end;
    repeat match goal with
    | |- context [?a <? ?b] => destruct (Nat.ltb_spec a b); try lia
    end;
    simpl; rewrite ?append_empty_r; done.
Qed.

(** ** Counters *)

Section CounterFacts.
Context {K : Type} `{EqDecision K}.
Implicit Types (k : K) (c : counter K) (l : list K).

Lemma count_of_incr k k' c :
  count_of k (incr k' c) =
  if decide (k = k') then S (count_of k c) else count_of k c.
Proof.
  induction c as [|[k1 v] c IH]; simpl.
  - by repeat case_decide.
  - repeat (case_decide; simpl; subst); try done; by rewrite IH; case_decide.
Qed.

Lemma keys_incr k k' c : k ∈ keys (incr k' c) ↔ k = k' ∨ k ∈ keys c.
Proof.
  unfold keys. induction c as [|[k1 v] c IH]; simpl.
  - rewrite list_elem_of_singleton, elem_of_nil. tauto.
  - case_decide; subst; simpl; rewrite !elem_of_cons; [tauto|].
    rewrite IH. tauto.
Qed.

Lemma keys_incr_NoDup k c : NoDup (keys c) → NoDup (keys (incr k c)).
Proof.
  unfold keys. induction c as [|[k1 v] c IH]; simpl; intros Hnd.
  - apply NoDup_singleton.
  - apply NoDup_cons in Hnd as [Hk1 Hnd].
    case_decide; subst; simpl; apply NoDup_cons; [done|].
    split; [|by apply IH]. intros [->|?]%keys_incr; done.
Qed.

Lemma total_incr k c : total (incr k c) = S (total c).
Proof.
  unfold total. induction c as [|[k1 v] c IH]; simpl; [done|].
  case_decide; simpl; [done|]. rewrite IH. lia.
Qed.

Lemma positive_incr k c :
  Forall (λ kv, 0 < kv.2) c → Forall (λ kv, 0 < kv.2) (incr k c).
Proof.
  induction 1 as [|[k1 v] c Hv Hc IH]; simpl.
  - repeat constructor.
  - case_decide; constructor; simpl in *; try done; lia.
Qed.

(** The counter built from a list, starting from any counter [c]. *)
Let count_from c l : counter K := foldl (λ c k, incr k c) c l.

Lemma count_from_count_of k c l :
  count_of k (count_from c l) = count_of k c + occurrences k l.
Proof.
  unfold occurrences. revert c. induction l as [|x l IH]; intros c; simpl.
  - lia.
  - rewrite IH, count_of_incr, filter_cons.
    repeat case_decide; subst; simpl; try done; lia.
Qed.

Lemma count_from_keys k c l :
  k ∈ keys (count_from c l) ↔ k ∈ keys c ∨ k ∈ l.
Proof.
  revert c. induction l as [|x l IH]; intros c; simpl.
  - rewrite elem_of_nil. tauto.
  - rewrite IH, keys_incr, elem_of_cons. tauto.
Qed.

Lemma count_from_NoDup c l : NoDup (keys c) → NoDup (keys (count_from c l)).
Proof.
  revert c. induction l as [|x l IH]; intros c Hc; simpl; [done|].
  by apply IH, keys_incr_NoDup.
Qed.

Lemma count_from_total c l : total (count_from c l) = total c + length l.
Proof.
  revert c. induction l as [|x l IH]; intros c; simpl; [lia|].
  rewrite IH, total_incr. lia.
Qed.

Lemma count_from_positive c l :
  Forall (λ kv, 0 < kv.2) c → Forall (λ kv, 0 < kv.2) (count_from c l).
Proof.
  revert c. induction l as [|x l IH]; intros c Hc; simpl; [done|].
  by apply IH, positive_incr.
Qed.

Lemma Counter_count_of k l : count_of k (Counter l) = occurrences k l.
Proof. apply (count_from_count_of k [] l). Qed.

Lemma Counter_keys k l : k ∈ keys (Counter l) ↔ k ∈ l.
Proof.
  change (Counter l) with (count_from [] l). rewrite count_from_keys. simpl.
  rewrite elem_of_nil. tauto.
Qed.

Lemma Counter_NoDup l : NoDup (keys (Counter l)).
Proof. apply (count_from_NoDup [] l), NoDup_nil_2. Qed.

Lemma Counter_total l : total (Counter l) = length l.
Proof. apply (count_from_total [] l). Qed.

Lemma Counter_positive l : Forall (λ kv, 0 < kv.2) (Counter l).
Proof. by apply (count_from_positive [] l). Qed.

Lemma Counter_length_le l : length (Counter l) ≤ length l.
Proof.
  rewrite <- Counter_total. generalize (Counter_positive l).
  induction 1 as [|[k v] c Hv _ IH]; simpl in *; lia.
Qed.

(** *** most_common *)

Lemma insert_desc_length x (c : counter K) :
  length (insert_desc x c) = S (length c).
Proof.
  induction c as [|y c IH]; simpl; [done|].
  destruct (x.2 <? y.2); simpl; by rewrite ?IH.
Qed.

Lemma sorted_desc_length (c : counter K) : length (sorted_desc c) = length c.
Proof.
  induction c as [|x c IH]; simpl; [done|]. by rewrite insert_desc_length, IH.
Qed.

Lemma insert_desc_perm x (c : counter K) : insert_desc x c ≡ₚ x :: c.
Proof.
  induction c as [|y c IH]; simpl; [done|].
  destruct (x.2 <? y.2); [|done]. rewrite IH. apply Permutation_swap.
Qed.

Lemma sorted_desc_perm (c : counter K) : sorted_desc c ≡ₚ c.
Proof.
  induction c as [|x c IH]; simpl; [done|]. by rewrite insert_desc_perm, IH.
Qed.

Lemma insert_desc_descending x (c : counter K) :
  descending c → descending (insert_desc x c).
Proof.
  unfold descending. induction c as [|y c IH]; simpl; intros Hc.
  - repeat constructor.
  - destruct (Nat.ltb_spec x.2 y.2) as [Hlt|Hge].
    + apply Sorted_inv in Hc as [Hc Hy]. constructor; [by apply IH|].
      destruct c as [|z c]; simpl.
      * constructor. lia.
      * destruct (x.2 <? z.2); constructor; [|lia]. by inversion Hy.
    + constructor; [done|]. constructor. lia.
Qed.

Lemma sorted_desc_descending (c : counter K) : descending (sorted_desc c).
Proof.
  induction c as [|x c IH]; simpl; [constructor|].
  by apply insert_desc_descending.
Qed.

Lemma descending_take n (c : counter K) : descending c → descending (take n c).
Proof.
  unfold descending. revert n. induction c as [|x c IH]; intros [|n] Hc; simpl;
    try constructor.
  - apply IH. by apply Sorted_inv in Hc as [].
  - apply Sorted_inv in Hc as [_ Hx].
    destruct Hx as [|y c Hy]; destruct n; simpl; by constructor.
Qed.

Lemma max_item_head (c : counter K) : max_item c = head (sorted_desc c).
Proof.
  induction c as [|x c IH]; simpl; [done|]. rewrite IH.
  destruct (sorted_desc c) as [|y c']; simpl; [done|].
  by destruct (x.2 <? y.2).
Qed.

(** The shortcuts of the library do not show: in every case the result is
    the start of the sorted list, and nothing when [n] is not positive. *)
Lemma most_common_sorted n (c : counter K) :
  most_common n c =
  if (n <=? 0)%Z then [] else take (Z.to_nat n) (sorted_desc c).
Proof.
  unfold most_common, nlargest. rewrite max_item_head.
  destruct (Z.eqb_spec n 1) as [->|Hn1].
  - simpl. by destruct (sorted_desc c).
  - destruct (Z.leb_spec n 0) as [Hn|Hn]; [|by destruct (_ <=? _)%Z].
    destruct (Z.leb_spec (Z.of_nat (length c)) n) as [Hc|Hc]; [|done].
    replace (Z.to_nat n) with 0 by lia. done.
Qed.

Lemma most_common_length n (c : counter K) :
  (Z.of_nat (length (most_common n c)) ≤ Z.max 0 n)%Z
  ∧ length (most_common n c) ≤ length c.
Proof.
  rewrite most_common_sorted. destruct (Z.leb_spec n 0) as [Hn|Hn]; simpl.
  - lia.
  - rewrite length_take, sorted_desc_length. lia.
Qed.

Lemma most_common_descending n (c : counter K) : descending (most_common n c).
Proof.
  rewrite most_common_sorted. destruct (n <=? 0)%Z; [constructor|].
  apply descending_take, sorted_desc_descending.
Qed.

Lemma most_common_subset n (c : counter K) : most_common n c ⊆ c.
Proof.
  rewrite most_common_sorted. destruct (n <=? 0)%Z; [by intros ? ?%elem_of_nil|].
  intros x Hx. rewrite <- sorted_desc_perm. by eapply subseteq_take.
Qed.

End CounterFacts.

Lemma Counter_distinct {K} `{Countable K} (l : list K) :
  length (Counter l) = size (list_to_set (C := gset K) l).
Proof.
  transitivity (length (keys (Counter l))).
  { unfold keys. by rewrite length_fmap. }
  rewrite <- (size_list_to_set (C := gset K)) by apply Counter_NoDup.
  f_equal. apply set_eq. intros k.
  by rewrite !elem_of_list_to_set, Counter_keys.
Qed.

(** ** Windows *)

Section Windows.
Context {A : Type}.
Implicit Types (l : list A) (n i : nat).

Lemma tail_drop l i : tail (drop i l) = drop (S i) l.
Proof. revert l. induction i as [|i IH]; intros [|x l]; simpl; auto. Qed.

Lemma heads_drops l n :
  heads ((λ i, drop i l) <$> seq 0 n) =
  if n <=? length l then Some (take n l) else None.
Proof.
  revert l. induction n as [|n IH]; intros l; [done|].
  cbn [seq fmap list_fmap]. rewrite <- fmap_S_seq, <- list_fmap_compose.
  destruct l as [|x l]; [done|]. cbn [drop heads].
  rewrite (list_fmap_ext _ (λ i, drop i l) (seq 0 n)) by done.
  rewrite IH. simpl. by destruct (n <=? length l).
Qed.

End Windows.

Lemma zip_cons_drops (l : list string) n :
  zip_cons l ((λ i, drop (S i) l) <$> seq 0 n) = windows (S n) l.
Proof.
  unfold windows. induction l as [|x l IH]; [done|].
  cbn [zip_cons]. rewrite (list_fmap_ext _ (λ i, drop i l) (seq 0 n)) by done.
  rewrite heads_drops. destruct (Nat.leb_spec n (length l)) as [Hle|Hgt].
  - rewrite <- list_fmap_compose.
    rewrite (list_fmap_ext _ (λ i, drop (S i) l) (seq 0 n))
      by (intros; apply tail_drop).
    rewrite IH. cbn [length].
    replace (S (length l) + 1 - S n) with (S (length l + 1 - S n)) by lia.
    cbn [seq fmap list_fmap]. f_equal.
    by rewrite <- fmap_S_seq, <- list_fmap_compose.
  - cbn [length]. by replace (S (length l) + 1 - S n) with 0 by lia.
Qed.

Lemma zip_star_drops (l : list string) n :
  0 < n → zip_star ((λ i, drop i l) <$> seq 0 n) = windows n l.
Proof.
  destruct n as [|n]; [lia|]. intros _.
  cbn [seq fmap list_fmap zip_star].
  rewrite <- fmap_S_seq, <- list_fmap_compose. apply zip_cons_drops.
Qed.

Lemma windows_length n (l : list string) :
  length (windows n l) = length l + 1 - n.
Proof. unfold windows. by rewrite length_fmap, length_seq. Qed.

Lemma windows_width n (l : list string) :
  Forall (λ w, length w = n) (windows n l).
Proof.
  unfold windows. apply Forall_fmap, Forall_forall. intros i Hi.
  apply elem_of_seq in Hi. simpl. rewrite length_take, length_drop. lia.
Qed.

(** The counter of trigrams counts the windows, for a positive [n]; for
    another [n] it is empty. *)
Lemma compute_trigrams_counts (l : list string) (n : Z) :
  _compute_trigrams l n =
  if (0 <? n)%Z then Counter (windows (Z.to_nat n) l) else [].
Proof.
  unfold _compute_trigrams, range.
  destruct (Z.ltb_spec 0 n) as [Hpos|Hneg].
  - destruct (Z.ltb_spec (Z.of_nat (length l)) n) as [Hlt|Hge].
    + unfold windows. by replace (length l + 1 - Z.to_nat n) with 0 by lia.
    + rewrite zip_star_drops by lia. done.
  - destruct (Z.ltb_spec (Z.of_nat (length l)) n) as [Hlt|Hge]; [done|].
    by replace (Z.to_nat n) with 0 by lia.
Qed.

(** ** The normalizer *)

Section Normalizer.
Variable english_stopwords : list string.
Variable stem : string → string.

Lemma process_tokens_normalize toks :
  _process_tokens english_stopwords stem toks
  = normalize english_stopwords stem toks.
Proof.
  unfold _process_tokens. induction toks as [|t ts IH]; [done|].
  cbn [fmap list_fmap normalize]. rewrite filter_cons, <- simple_lemmatize_rules.
  repeat case_decide; cbn [fmap list_fmap]; rewrite <- ?IH; try done; tauto.
Qed.

Lemma process_tokens_length toks :
  length (_process_tokens english_stopwords stem toks) ≤ length toks.
Proof.
  unfold _process_tokens. rewrite length_fmap.
  etrans; [apply length_filter|]. by rewrite length_fmap.
Qed.

End Normalizer.

(** ** Entities *)

Lemma list_to_set_filter_not_in (bl : gset string) (l : list string) :
  list_to_set (C := gset string) (filter (λ e, e ∉ bl) l) = list_to_set l ∖ bl.
Proof.
  apply set_eq. intros e.
  rewrite elem_of_difference, !elem_of_list_to_set, list_elem_of_filter. tauto.
Qed.

Lemma extract_named_entities_words raw_text :
  _extract_named_entities raw_text =
  list_to_set (of_chars <$> filter (λ r, capitalized r) (words raw_text))
    ∖ blacklist.
Proof.
  unfold _extract_named_entities.
  by rewrite list_to_set_filter_not_in, findall_entity_pattern.
Qed.

Lemma capitalized_all_alpha r : capitalized r = true → all_alpha r = true.
Proof. unfold capitalized. by intros [_ ?]%andb_true_iff. Qed.

(** A text without tokens has no capitalized word either. *)
Lemma tokenize_nil_no_candidates raw_text :
  _tokenize raw_text = [] →
  filter (λ r, capitalized r) (words raw_text) = [].
Proof.
  rewrite tokenize_words. intros Hnil%fmap_nil_inv.
  induction (words raw_text) as [|r l IH]; [done|].
  rewrite filter_bool_cons in *. destruct (all_alpha r) eqn:Hr; [done|].
  destruct (capitalized r) eqn:Hc; [|by apply IH].
  by rewrite (capitalized_all_alpha _ Hc) in Hr.
Qed.

Lemma occurrences_not_in {A} `{EqDecision A} (x : A) (l : list A) :
  x ∉ l → occurrences x l = 0.
Proof.
  unfold occurrences. induction l as [|y l IH]; [done|].
  intros Hx. apply not_elem_of_cons in Hx as [Hxy Hx].
  rewrite filter_cons, decide_False by done. by apply IH.
Qed.

Lemma NoDup_occurrences {A} `{EqDecision A} (x : A) (l : list A) :
  NoDup l → x ∈ l → occurrences x l = 1.
Proof.
  induction 1 as [|y l Hy Hl IH]; [by intros ?%elem_of_nil|].
  unfold occurrences. rewrite filter_cons. intros [->|Hx]%elem_of_cons.
  - rewrite decide_True by done. simpl. f_equal. by apply occurrences_not_in.
  - rewrite decide_False by (intros ->; done). by apply IH.
Qed.

(** ** Methods and the frame *)

Create HintDb frame discriminated.

Lemma preserves_ret {A} (a : A) : preserves_self (mret a).
Proof. by intros w. Qed.

Lemma preserves_bind {A B} (m : M A) (k : A → M B) :
  preserves_self m → (∀ a, preserves_self (k a)) → preserves_self (m ≫= k).
Proof.
  intros Hm Hk w. unfold mbind, M_bind.
  specialize (Hm w). destruct (m w) as [a w']. simpl in Hm.
  by rewrite Hk.
Qed.

Lemma preserves_read {A} (field : TextProcessor → A) :
  preserves_self (read field).
Proof. by intros w. Qed.

Lemma preserves_print line : preserves_self (print line).
Proof. by intros w. Qed.

Lemma preserves_for_each {A} (l : list A) (body : A → M unit) :
  (∀ x, preserves_self (body x)) → preserves_self (for_each l body).
Proof.
  intros Hbody. induction l as [|x l IH]; simpl.
  - apply preserves_ret.
  - apply preserves_bind; auto.
Qed.

#[local] Hint Resolve preserves_ret preserves_bind preserves_read
  preserves_print preserves_for_each : frame.

Lemma preserves_top_tokens n : preserves_self (top_tokens n).
Proof. unfold top_tokens. auto with frame. Qed.

Lemma preserves_top_trigrams k : preserves_self (top_trigrams k).
Proof. unfold top_trigrams. auto with frame. Qed.

#[local] Hint Resolve preserves_top_tokens preserves_top_trigrams : frame.

Lemma preserves_summary : preserves_self summary.
Proof.
  unfold summary.
  repeat first
    [ apply preserves_bind; [auto with frame|intros ?]
    | apply preserves_for_each; intros []
    | auto with frame ].
Qed.

Lemma preserves_run_call c : preserves_self (run_call c).
Proof.
  destruct c; simpl; auto using preserves_summary with frame.
Qed.

Lemma most_common_nil {K} `{EqDecision K} n : most_common (K := K) n [] = [].
Proof. rewrite most_common_sorted. destruct (n <=? 0)%Z; [done|]. by destruct (Z.to_nat n). Qed.

(** * Properties of the pipeline *)

(** ** Tokenizer *)



(** ** Lemmatizer *)

(** C2: the lemmatizer applies the first rule of the priority list that
    matches, and only that one; a word that no rule matches is unchanged.
    Stripping a suffix leaves the part of the word before it. *)
Theorem simple_lemmatize_first_rule :
  (∀ word, _simple_lemmatize word = LemmaSpec.lemmatize word)
  ∧ (∀ suf w p, LemmaSpec.strip suf w = Some p ↔ w = p +:+ suf)
  ∧ _simple_lemmatize "flies" = "fly"
  ∧ _simple_lemmatize "boxes" = "box"
  ∧ _simple_lemmatize "jumped" = "jump"
  ∧ _simple_lemmatize "running" = "runn"
  ∧ _simple_lemmatize "cats" = "cat"
  ∧ _simple_lemmatize "is" = "is".
Proof.
  split_and!; try reflexivity.
  - apply simple_lemmatize_rules.
  - apply strip_spec.
Qed.

(** ** Normalizer *)

(** C3: the normalized sequence is the result of lemmatizing each token,
    dropping a lemmatized token exactly when it is a stopword and not a
    preserved term, and stemming the survivors; order is kept and nothing
    stands in for a dropped token; a preserved term always survives. *)
Theorem process_tokens_pipeline (english_stopwords : list string)
    (stem : string → string) (toks : list string) :
  let result := _process_tokens english_stopwords stem toks in
  let lemmatized := _simple_lemmatize <$> toks in
  result = normalize english_stopwords stem toks
  ∧ (∃ kept,
       kept `sublist_of` lemmatized
       ∧ (∀ t, t ∈ kept ↔
            t ∈ lemmatized
            ∧ ¬ (t ∈ stop_words english_stopwords ∧ t ∉ preserved))
       ∧ result = stem <$> kept)
  ∧ (∀ t, t ∈ lemmatized → t ∈ preserved → stem t ∈ result)
  ∧ preserved = {[ "romeo"; "juliet"; "verona" ]}.
Proof.
  intros result lemmatized. split_and!.
  - apply process_tokens_normalize.
  - exists (filter (λ t, t ∉ stop_words english_stopwords ∨ t ∈ preserved)
              lemmatized).
    split_and!; [apply sublist_filter| |reflexivity].
    intros t. rewrite list_elem_of_filter.
    destruct (decide (t ∈ stop_words english_stopwords));
      destruct (decide (t ∈ preserved)); tauto.
  - intros t Ht Hp. apply list_elem_of_fmap_2, list_elem_of_filter. auto.
  - reflexivity.
Qed.

(** ** Entity extractor *)

(** C4, as stated, fails: a capitalized run of letters that touches a digit
    is not an entity.  In ["Apollo11"] the run [Apollo] starts with an
    uppercase letter, but it is followed by a digit, so the pattern finds
    nothing. *)
Lemma entities_letters_before_digit :
  ("Apollo" ∈ capitalized_letter_runs "Apollo11")
  ∧ ("Apollo" ∉ _extract_named_entities "Apollo11")
  ∧ (_extract_named_entities "Apollo11" ≠ capitalized_letter_runs "Apollo11").
Proof.
  assert ("Apollo" ∈ capitalized_letter_runs "Apollo11") as Hin
    by (apply (bool_decide_unpack _); by vm_compute).
  assert ("Apollo" ∉ _extract_named_entities "Apollo11") as Hout
    by (apply (bool_decide_unpack _); by vm_compute).
  split_and!; [done..|]. intros Heq. by rewrite Heq in Hout.
Qed.

(** C4, amended: the entity set is the set of the distinct whole words of
    the raw text (maximal runs of word characters: letters, digits,
    underscore) that consist of ASCII letters only and start with an
    uppercase letter, minus the exact matches of the blacklist; a
    blacklisted word is never in it, whatever its frequency; every word in
    it is in it once; and on a text whose word characters are all ASCII
    letters it is the set the specification describes. *)
Theorem named_entities_whole_words (raw_text : string) :
  let result := _extract_named_entities raw_text in
  result =
    list_to_set (of_chars <$> filter (λ r, capitalized r) (words raw_text))
      ∖ blacklist
  ∧ (∀ e, e ∈ blacklist → e ∉ result)
  ∧ (∀ e, e ∈ result → occurrences e (elements result) = 1)
  ∧ (Forall (λ c, Char.is_word c = Char.is_alpha c) (chars raw_text) →
     result = capitalized_letter_runs raw_text).
Proof.
  intros result. unfold result. rewrite extract_named_entities_words.
  split_and!.
  - done.
  - intros e He. rewrite elem_of_difference. tauto.
  - intros e He. apply NoDup_occurrences; [apply NoDup_elements|].
    by apply elem_of_elements.
  - intros Hw. unfold capitalized_letter_runs, words.
    rewrite (runs_ext _ _ _ Hw). do 3 f_equal.
    apply filter_bool_ext.
    eapply Forall_impl; [apply (runs_all Char.is_alpha)|].
    intros r [_ Hr]. unfold capitalized, all_alpha. by rewrite Hr, andb_true_r.
Qed.

(** ** Frequency aggregator *)

(** C5, as stated, fails for a window size that is not positive.  With
    [N = 0] every length [L] satisfies [L >= N], and the claim promises
    [L - N + 1] observations, three for two tokens; but [range(0)] is empty,
    [zip] of no list yields nothing, and the mapping is empty. *)
Lemma trigrams_window_zero :
  (0 ≤ Z.of_nat (length ["a"; "b"]))%Z
  ∧ _compute_trigrams ["a"; "b"] 0 = []
  ∧ Z.of_nat (total (_compute_trigrams ["a"; "b"] 0))
    ≠ (Z.of_nat (length ["a"; "b"]) - 0 + 1)%Z.
Proof. by vm_compute. Qed.

(** C5, amended: for every normalized token sequence of length [L] and
    every window size [N >= 1], the n-gram frequency counts every
    contiguous window of [N] consecutive tokens, keyed by its ordered
    [N]-tuple; if [L < N] the mapping is empty, and if [L >= N] the sum of
    all counts is [L - N + 1]. *)
Theorem compute_trigrams_window_count (processed_tokens : list string) (n : Z) :
  (0 < n)%Z →
  let c := _compute_trigrams processed_tokens n in
  let L := Z.of_nat (length processed_tokens) in
  c = Counter (windows (Z.to_nat n) processed_tokens)
  ∧ (∀ w, count_of w c = occurrences w (windows (Z.to_nat n) processed_tokens))
  ∧ (∀ w, w ∈ keys c ↔ w ∈ windows (Z.to_nat n) processed_tokens)
  ∧ Forall (λ w, Z.of_nat (length w) = n) (keys c)
  ∧ ((L < n)%Z → c = [])
  ∧ ((n ≤ L)%Z → Z.of_nat (total c) = (L - n + 1)%Z).
Proof.
  intros Hn c L. unfold c. rewrite compute_trigrams_counts.
  replace (0 <? n)%Z with true by (symmetry; by apply Z.ltb_lt).
  split_and!.
  - done.
  - intros w. apply Counter_count_of.
  - intros w. apply Counter_keys.
  - apply Forall_forall. intros w Hw.
    apply (proj1 (Counter_keys _ _)) in Hw.
    pose proof (windows_width (Z.to_nat n) processed_tokens) as Hall.
    rewrite Forall_forall in Hall. rewrite (Hall w Hw). lia.
  - intros HL. unfold windows.
    by replace (length processed_tokens + 1 - Z.to_nat n) with 0 by lia.
  - intros HL. rewrite Counter_total, windows_length. lia.
Qed.

Lemma compute_trigrams_window_count_witness :
  (0 < 3)%Z
  ∧ Z.of_nat (total (_compute_trigrams ["a"; "b"; "c"; "d"] 3)) = 2%Z.
Proof.
  split; [lia|].
  pose proof (compute_trigrams_window_count ["a"; "b"; "c"; "d"] 3)
    as Hthm.
  destruct Hthm as (_ & _ & _ & _ & _ & Hsum); [lia|].
  rewrite Hsum; simpl; lia.
Defined.

(** C10: the token frequency is a faithful multiset of the normalized
    tokens: its keys are the distinct normalized tokens, each once; every
    count is positive, and is the number of occurrences of its key; the
    counts add up to the length of the normalized sequence, which is at
    most the length of the token sequence. *)
Theorem token_freq_multiset (english_stopwords : list string)
    (stem : string → string) (text title : string) :
  let p := __init__ english_stopwords stem text title in
  NoDup (keys (token_freq p))
  ∧ (∀ t, t ∈ keys (token_freq p) ↔ t ∈ processed_tokens p)
  ∧ Forall (λ kv, 0 < kv.2) (token_freq p)
  ∧ (∀ t, count_of t (token_freq p) = occurrences t (processed_tokens p))
  ∧ total (token_freq p) = length (processed_tokens p)
  ∧ length (processed_tokens p) ≤ length (tokens p).
Proof.
  intros p. simpl. split_and!.
  - apply Counter_NoDup.
  - intros t. apply Counter_keys.
  - apply Counter_positive.
  - intros t. apply Counter_count_of.
  - apply Counter_total.
  - apply process_tokens_length.
Qed.

(** ** Accessors *)

(** C6, as stated, fails for a negative bound: the list returned is empty,
    and its length, zero, is more than [n = -1]. *)
Lemma top_tokens_negative_bound :
  token_freq (__init__ [] (λ t, t) "a a" "doc") = [("a", 2)]
  ∧ (top_tokens (-1) (after_init (__init__ [] (λ t, t) "a a" "doc"))).1 = []
  ∧ ¬ (Z.of_nat (length
         (top_tokens (-1) (after_init (__init__ [] (λ t, t) "a a" "doc"))).1)
       ≤ -1)%Z.
Proof. split_and!; [by vm_compute..|]. vm_compute. by intros H. Qed.

(** C6, amended: [top_tokens(n)] returns a list of (token, count) pairs of
    the token frequency, of length at most [max(n, 0)] and at most the
    number of distinct normalized tokens; [top_trigrams(k)] returns a list
    of (3-tuple, count) pairs of the trigram frequency, of length at most
    [max(k, 0)] and at most the number of distinct trigrams; in both lists
    the counts are in non-increasing order. *)
Theorem top_lists_bounded (english_stopwords : list string)
    (stem : string → string) (text title : string) (out : list string)
    (n k : Z) :
  let p := __init__ english_stopwords stem text title in
  let tops := (top_tokens n (World p out)).1 in
  let tris := (top_trigrams k (World p out)).1 in
  (Z.of_nat (length tops) ≤ Z.max 0 n)%Z
  ∧ length tops ≤ size (list_to_set (C := gset string) (processed_tokens p))
  ∧ tops ⊆ token_freq p
  ∧ descending tops
  ∧ (Z.of_nat (length tris) ≤ Z.max 0 k)%Z
  ∧ length tris
    ≤ size (list_to_set (C := gset (list string))
              (windows 3 (processed_tokens p)))
  ∧ tris ⊆ trigram_freq p
  ∧ descending tris
  ∧ Forall (λ kv, length kv.1 = 3) tris.
Proof.
  intros p tops tris.
  assert (trigram_freq p = Counter (windows 3 (processed_tokens p))) as Htri
    by apply compute_trigrams_counts.
  assert (tris ⊆ trigram_freq p) as Hsub by apply most_common_subset.
  split_and!.
  - apply most_common_length.
  - etrans; [apply most_common_length|]. simpl. by rewrite Counter_distinct.
  - apply most_common_subset.
  - apply most_common_descending.
  - apply most_common_length.
  - etrans; [apply most_common_length|].
    change (self (World p out)) with p. by rewrite Htri, Counter_distinct.
  - done.
  - apply most_common_descending.
  - apply Forall_forall. intros [t v] Hin%Hsub. rewrite Htri in Hin.
    assert (t ∈ windows 3 (processed_tokens p)) as Hw.
    { apply Counter_keys. by apply (list_elem_of_fmap_2 fst) in Hin. }
    pose proof (windows_width 3 (processed_tokens p)) as Hall.
    rewrite Forall_forall in Hall. by apply Hall.
Qed.

(** ** Degenerate input *)

(** C7: when the text has no token, construction yields an empty
    normalized sequence, empty token and trigram frequencies and an empty
    entity set; [top_tokens] and [top_trigrams] return the empty list for
    every bound, and the summary reports zero counts. *)
Theorem empty_tokenization_empty_processor (english_stopwords : list string)
    (stem : string → string) (text title : string) :
  _tokenize text = [] →
  let p := __init__ english_stopwords stem text title in
  tokens p = []
  ∧ processed_tokens p = []
  ∧ token_freq p = []
  ∧ trigram_freq p = []
  ∧ named_entities p = ∅
  ∧ (∀ n k out,
       (top_tokens n (World p out)).1 = []
       ∧ (top_trigrams k (World p out)).1 = [])
  ∧ (∀ out,
       stdout (summary (World p out)).2 =
       out ++ [ newline +:+ "=== " +:+ title +:+ " ===";
                "Total tokens (raw): 0";
                "Unique named entities (0): []";
                "Top 20 tokens (after processing):";
                "Top 10 trigrams:" ]).
Proof.
  intros Hnil p.
  assert (named_entities p = ∅) as Hents.
  { simpl. rewrite extract_named_entities_words.
    rewrite tokenize_nil_no_candidates by done.
    apply set_eq. intros e. rewrite elem_of_difference, elem_of_list_to_set.
    cbn [fmap list_fmap]. rewrite elem_of_nil. set_unfold. tauto. }
  assert (p = mkTextProcessor title text [] [] ∅ [] []) as Hp.
  { unfold p, __init__ in *. simpl in Hents. by rewrite Hents, Hnil. }
  split_and!; try by rewrite Hp.
  - intros n k out. rewrite Hp. split; apply most_common_nil.
  - intros out. rewrite Hp.
    unfold summary, top_tokens, top_trigrams, read, print, mbind, M_bind,
      mret, M_ret.
    cbn [self stdout tokens named_entities token_freq trigram_freq
         name fst snd].
    rewrite !most_common_nil.
    cbn [for_each mret M_ret self trigram_freq stdout snd].
    rewrite most_common_nil. cbn [for_each mret M_ret stdout snd].
    rewrite <- !app_assoc. cbn [app]. by repeat f_equal.
Qed.

Lemma empty_tokenization_empty_processor_witness :
  _tokenize "12, 34!" = []
  ∧ token_freq (__init__ ["the"] (λ t, t) "12, 34!" "digits") = []
  ∧ named_entities (__init__ ["the"] (λ t, t) "12, 34!" "digits") = ∅.
Proof.
  pose proof (empty_tokenization_empty_processor ["the"] (λ t, t)
                "12, 34!" "digits" eq_refl) as Hthm.
  destruct Hthm as (_ & _ & Hfreq & _ & Hents & _).
  split_and!; [reflexivity|exact Hfreq|exact Hents].
Defined.

(** ** Lifetime of the derived structures *)

(** C8: the derived structures are computed by the constructor, and no
    sequence of calls of [top_tokens], [top_trigrams] and [summary] changes
    any field of the processor. *)
Theorem methods_preserve_processor (english_stopwords : list string)
    (stem : string → string) (text title : string) :
  let p := __init__ english_stopwords stem text title in
  (name p = title
   ∧ raw_text p = text
   ∧ tokens p = _tokenize text
   ∧ processed_tokens p = _process_tokens english_stopwords stem (tokens p)
   ∧ named_entities p = _extract_named_entities text
   ∧ token_freq p = Counter (processed_tokens p)
   ∧ trigram_freq p = _compute_trigrams (processed_tokens p) 3)
  ∧ (∀ calls out, self (run_calls calls (World p out)).2 = p)
  ∧ (∀ calls w, self (run_calls calls w).2 = self w).
Proof.
  intros p.
  assert (∀ calls, preserves_self (run_calls calls)) as Hframe.
  { intros calls. apply preserves_for_each, preserves_run_call. }
  split_and!; try reflexivity.
  - intros calls out. apply Hframe.
  - intros calls w. apply Hframe.
Qed.

(** ** Determinism *)



(** ** Worked examples *)

(** The end-to-end example of the specification: [The] is blacklisted,
    [Quick] is found twice and kept once, and only the capitalized [Fox]
    is an entity, while both [fox] and [Fox] are tokens. *)
Example quick_fox_entities :
  _extract_named_entities "The Quick fox. The Quick Fox ran."
  = {[ "Quick"; "Fox" ]}.
Proof. by vm_compute. Qed.

Example quick_fox_tokens :
  _tokenize "The Quick fox. The Quick Fox ran."
  = ["the"; "quick"; "fox"; "the"; "quick"; "fox"; "ran"].
Proof. reflexivity. Qed.

(** With the stopword [the] and a stemmer that changes nothing. *)
Example quick_fox_frequencies :
  let p := __init__ ["the"] (λ t, t)
             "The Quick fox. The Quick Fox ran." default_name in
  token_freq p = [("quick", 2); ("fox", 2); ("ran", 1)]
  ∧ trigram_freq p =
      [ (["quick"; "fox"; "quick"], 1);
        (["fox"; "quick"; "fox"], 1);
        (["quick"; "fox"; "ran"], 1) ]
  ∧ (top_tokens 2 (after_init p)).1 = [("quick", 2); ("fox", 2)].
Proof. by vm_compute. Qed.

(** A word next to a digit or an underscore is neither a token nor an
    entity. *)
Example words_touching_digits :
  _tokenize "abc123 x_y R2D2 ok" = ["ok"]
  ∧ _extract_named_entities "Apollo11 landed, Houston" = {[ "Houston" ]}.
Proof. by vm_compute. Qed.

(** A preserved term survives even when the stopword list holds it, and an
    ordinary stopword is dropped. *)
Example preserved_term_survives :
  _process_tokens ["romeo"; "the"] (λ t, t) ["the"; "romeo"; "meets"; "juliet"]
  = ["romeo"; "meet"; "juliet"].
Proof. by vm_compute. Qed.

(** Ties in [most_common] keep the order of first occurrence. *)
Example most_common_ties :
  most_common 2 (Counter ["b"; "a"; "b"; "a"; "c"]) = [("b", 2); ("a", 2)]
  ∧ most_common 1 (Counter ["b"; "a"; "b"; "a"; "c"]) = [("b", 2)]
  ∧ most_common 0 (Counter ["b"; "a"; "b"; "a"; "c"]) = [].
Proof. by vm_compute. Qed.

(** * Further properties *)

(** ** Texts put together *)

Lemma runs_app_sep (f : ascii → bool) s1 c s2 :
  f c = false → runs f (s1 ++ c :: s2) = runs f s1 ++ runs f s2.
Proof.
  intros Hc. induction s1 as [|a s1 IH]; [by apply runs_skip|].
  destruct s1 as [|b s1].
  - change ([a] ++ c :: s2) with (a :: c :: s2).
    rewrite runs_cons2, Hc, (runs_skip _ _ _ Hc). simpl. by destruct (f a).
  - change ((a :: b :: s1) ++ c :: s2) with (a :: b :: (s1 ++ c :: s2)).
    rewrite !runs_cons2.
    change (b :: (s1 ++ c :: s2)) with ((b :: s1) ++ c :: s2). rewrite IH.
    destruct (f a); [|done]. destruct (f b) eqn:Hb; [|done].
    by rewrite (runs_start _ _ _ Hb).
Qed.

Lemma chars_append s1 s2 : chars (s1 +:+ s2) = chars s1 ++ chars s2.
Proof.
  induction s1 as [|c s1 IH]; [done|]. rewrite append_cons. simpl.
  f_equal. apply IH.
Qed.

Lemma of_chars_app l1 l2 : of_chars (l1 ++ l2) = of_chars l1 +:+ of_chars l2.
Proof.
  induction l1 as [|c l1 IH]; [done|]. simpl. rewrite append_cons.
  f_equal. apply IH.
Qed.

Lemma words_sep s1 c s2 :
  Char.is_word c = false → words (s1 +:+ String c s2) = words s1 ++ words s2.
Proof.
  intros Hc. unfold words. rewrite chars_append. by apply runs_app_sep.
Qed.

Lemma tokenize_sep s1 c s2 :
  Char.is_word c = false →
  _tokenize (s1 +:+ String c s2) = _tokenize s1 ++ _tokenize s2.
Proof.
  intros Hc. rewrite !tokenize_words, words_sep by done.
  by rewrite filter_app, fmap_app.
Qed.

Lemma extract_named_entities_sep s1 c s2 :
  Char.is_word c = false →
  _extract_named_entities (s1 +:+ String c s2)
  = _extract_named_entities s1 ∪ _extract_named_entities s2.
Proof.
  intros Hc. rewrite !extract_named_entities_words, words_sep by done.
  rewrite filter_app, fmap_app. apply set_eq. intros e.
  rewrite elem_of_union, !elem_of_difference, !elem_of_list_to_set, elem_of_app.
  tauto.
Qed.

(** ** Tokens read again *)

Lemma lower_char_idem c : Char.lower_char (Char.lower_char c) = Char.lower_char c.
Proof. each_char c. Qed.

Lemma lower_char_of_lower c : Char.is_lower c = true → Char.lower_char c = c.
Proof. each_char c. Qed.

Lemma lower_idem s : lower (lower s) = lower s.
Proof.
  unfold lower. rewrite chars_of_chars, map_map. f_equal.
  apply map_ext. intros c. apply lower_char_idem.
Qed.

Lemma lower_of_lowercase s :
  forallb Char.is_lower (chars s) = true → lower s = s.
Proof.
  intros Hs. unfold lower. rewrite <- (of_chars_chars s) at 2. f_equal.
  induction (chars s) as [|c l IH]; [done|]. simpl in *.
  apply andb_true_iff in Hs as [Hc Hl]. by rewrite (lower_char_of_lower _ Hc), IH.
Qed.

Lemma run_of_whole (f : ascii → bool) r :
  forallb f r = true → run_of f r = r ∧ after_run f r = [].
Proof.
  induction r as [|c r IH]; [done|]. simpl.
  intros [Hc Hr]%andb_true_iff. rewrite Hc. destruct (IH Hr) as [-> ->]. done.
Qed.

Lemma runs_whole (f : ascii → bool) r :
  r ≠ [] → forallb f r = true → runs f r = [r].
Proof.
  destruct r as [|c r]; [done|]. intros _ [Hc Hr]%andb_true_iff.
  rewrite (runs_start _ _ _ Hc). by destruct (run_of_whole f r Hr) as [-> ->].
Qed.

Lemma lowercase_all_alpha r :
  forallb Char.is_lower r = true → all_alpha r = true.
Proof.
  unfold all_alpha. induction r as [|c r IH]; [done|]. simpl.
  intros [Hc Hr]%andb_true_iff. by rewrite (lower_is_alpha _ Hc), IH.
Qed.

Lemma all_alpha_all_word r : all_alpha r = true → forallb Char.is_word r = true.
Proof.
  unfold all_alpha. induction r as [|c r IH]; [done|]. simpl.
  intros [Hc Hr]%andb_true_iff. by rewrite (alpha_is_word _ Hc), IH.
Qed.

(** A lowercase word is its own and only token. *)
Lemma tokenize_single t :
  t ≠ "" → forallb Char.is_lower (chars t) = true → _tokenize t = [t].
Proof.
  intros Hne Hlow. rewrite tokenize_words. unfold words.
  pose proof (lowercase_all_alpha _ Hlow) as Halpha.
  rewrite runs_whole; [|by destruct t|by apply all_alpha_all_word].
  rewrite filter_bool_cons, Halpha. cbn [filter list_filter fmap list_fmap].
  by rewrite of_chars_chars, lower_of_lowercase.
Qed.

Lemma tokenize_joined l :
  Forall (λ t, t ≠ "" ∧ forallb Char.is_lower (chars t) = true) l →
  _tokenize (join " " l) = l.
Proof.
  induction 1 as [|t l [Hne Hlow] Hl IH]; [done|].
  destruct l as [|t' l]; [by apply tokenize_single|].
  change (join " " (t :: t' :: l)) with (t +:+ String " " (join " " (t' :: l))).
  rewrite tokenize_sep by done. by rewrite IH, tokenize_single.
Qed.

(** ** Entities and tokens *)

Lemma entity_is_word raw_text e :
  e ∈ _extract_named_entities raw_text →
  (e ∉ blacklist)
  ∧ (∃ r, e = of_chars r ∧ capitalized r = true ∧ r ∈ words raw_text).
Proof.
  rewrite extract_named_entities_words, elem_of_difference,
    elem_of_list_to_set, list_elem_of_fmap.
  intros [(r & -> & [Hcap Hr]%list_elem_of_filter) Hbl].
  split; [done|]. exists r. split_and!; [done| |done]. by apply Is_true_true.
Qed.

Lemma entity_lower_is_token raw_text e :
  e ∈ _extract_named_entities raw_text → lower e ∈ _tokenize raw_text.
Proof.
  intros (_ & r & -> & Hcap & Hr)%entity_is_word.
  rewrite tokenize_words.
  apply (list_elem_of_fmap_2 (λ r, lower (of_chars r))), list_elem_of_filter.
  split; [|done]. apply Is_true_true. by apply capitalized_all_alpha.
Qed.

Lemma size_list_to_set_le (l : list string) :
  size (list_to_set (C := gset string) l) ≤ length l.
Proof.
  induction l as [|x l IH].
  - by rewrite list_to_set_nil, size_empty.
  - rewrite list_to_set_cons, size_union_alt, size_singleton. simpl.
    assert (size (list_to_set (C := gset string) l ∖ {[x]})
            ≤ size (list_to_set (C := gset string) l)) as Hle.
    { apply subseteq_size. intros y. rewrite elem_of_difference. tauto. }
    lia.
Qed.

Lemma filter_capitalized_le (l : list (list ascii)) :
  length (filter (λ r, capitalized r) l) ≤ length (filter (λ r, all_alpha r) l).
Proof.
  induction l as [|r l IH]; [done|]. rewrite !filter_bool_cons.
  destruct (capitalized r) eqn:Hc.
  - rewrite (capitalized_all_alpha _ Hc). simpl. lia.
  - destruct (all_alpha r); simpl; lia.
Qed.

Lemma entities_no_more_than_tokens raw_text :
  size (_extract_named_entities raw_text) ≤ length (_tokenize raw_text).
Proof.
  rewrite extract_named_entities_words, tokenize_words, length_fmap.
  set (found := of_chars <$> filter (λ r, capitalized r) (words raw_text)).
  assert (size (list_to_set (C := gset string) found ∖ blacklist)
          ≤ size (list_to_set (C := gset string) found)) as Hsub.
  { apply subseteq_size. intros e. rewrite elem_of_difference. tauto. }
  pose proof (size_list_to_set_le found) as Hsize.
  pose proof (filter_capitalized_le (words raw_text)) as Hcap.
  assert (length found = length (filter (λ r, capitalized r) (words raw_text)))
    as Hlen by apply length_fmap.
  lia.
Qed.

(** ** The lemmatizer, word by word *)

Lemma len_substring_0 k w : len (substring 0 k w) = min k (len w).
Proof.
  revert k. induction w as [|c w IH]; intros [|k]; simpl; try done.
  by rewrite IH.
Qed.

Lemma len_drop_last k w : len (drop_last k w) = len w - k.
Proof. unfold drop_last. rewrite len_substring_0. lia. Qed.

Lemma substring_0_append k p q :
  k ≤ len p → substring 0 k (p +:+ q) = substring 0 k p.
Proof.
  revert k. induction p as [|c p IH]; intros k Hk.
  - simpl in Hk. replace k with 0 by lia. change ("" +:+ q) with q.
    by destruct q.
  - rewrite append_cons. destruct k as [|k]; [done|]. simpl.
    f_equal. apply IH. simpl in Hk. lia.
Qed.

Lemma substring_0_substring_0 k m w :
  k ≤ m → substring 0 k (substring 0 m w) = substring 0 k w.
Proof.
  revert k m. induction w as [|c w IH]; intros [|k] [|m] Hk; simpl;
    try done; try lia.
  f_equal. apply IH. lia.
Qed.

Lemma chars_substring_0 k w : chars (substring 0 k w) = take k (chars w).
Proof.
  revert k. induction w as [|c w IH]; intros [|k]; simpl; try done.
  f_equal. apply IH.
Qed.

(** The five rules, one at a time, as [_simple_lemmatize] takes them. *)
Lemma simple_lemmatize_cases word :
  (some_rule_applies word = true
   ∧ ((endswith word "ies" = true ∧ 3 < len word
       ∧ _simple_lemmatize word = drop_last 3 word +:+ "y")
      ∨ (endswith word "es" = true ∧ 2 ≤ len word
         ∧ _simple_lemmatize word = drop_last 2 word)
      ∨ (endswith word "ed" = true ∧ 4 < len word
         ∧ _simple_lemmatize word = drop_last 2 word)
      ∨ (endswith word "ing" = true ∧ 5 < len word
         ∧ _simple_lemmatize word = drop_last 3 word)
      ∨ (endswith word "s" = true ∧ 3 < len word
         ∧ _simple_lemmatize word = drop_last 1 word)))
  ∨ (some_rule_applies word = false ∧ _simple_lemmatize word = word).
Proof.
  unfold _simple_lemmatize, some_rule_applies.
  destruct (endswith word "ies") eqn:H1, (endswith word "es") eqn:H2,
    (endswith word "ed") eqn:H3, (endswith word "ing") eqn:H4,
    (endswith word "s") eqn:H5;
    repeat match goal with
    | H : endswith _ _ = true |- _ => apply endswith_len in H; simpl in H
    end;
    repeat match goal with
    | |- context [?a <? ?b] => destruct (Nat.ltb_spec a b)
    end;
    simpl; auto 12 with lia.
Qed.

Lemma endswith_whole w suf :
  endswith w suf = true → len w = len suf → w = suf.
Proof.
  unfold endswith. intros [_ Heq]%andb_true_iff Hlen.
  rewrite <- Hlen, Nat.sub_diag, substring_all in Heq.
  by apply String.eqb_eq.
Qed.

Lemma len_zero w : len w = 0 → w = "".
Proof. by destruct w. Qed.

Lemma forallb_take {A} (f : A → bool) k (l : list A) :
  forallb f l = true → forallb f (take k l) = true.
Proof.
  revert k. induction l as [|x l IH]; intros [|k]; simpl; try done.
  intros [Hx Hl]%andb_true_iff. by rewrite Hx, IH.
Qed.

Lemma simple_lemmatize_lowercase word :
  forallb Char.is_lower (chars word) = true →
  forallb Char.is_lower (chars (_simple_lemmatize word)) = true.
Proof.
  intros Hlow.
  assert (∀ k, forallb Char.is_lower (chars (drop_last k word)) = true) as Hd.
  { intros k. unfold drop_last. rewrite chars_substring_0.
    by apply forallb_take. }
  destruct (simple_lemmatize_cases word)
    as [[_ [(_&_&->)|[(_&_&->)|[(_&_&->)|[(_&_&->)|(_&_&->)]]]]]|[_ ->]];
    try done.
  rewrite chars_append, forallb_app, Hd. done.
Qed.

(** X6: the lemmatizer only touches the end of a word: the result is never
    longer than the word, is at most three characters shorter, and agrees
    with the word on all but its last three characters. *)
Theorem simple_lemmatize_keeps_stem (word : string) :
  len (_simple_lemmatize word) ≤ len word
  ∧ len word ≤ len (_simple_lemmatize word) + 3
  ∧ substring 0 (len word - 3) (_simple_lemmatize word)
    = substring 0 (len word - 3) word.
Proof.
  assert (∀ k, k ≤ 3 →
            substring 0 (len word - 3) (drop_last k word)
            = substring 0 (len word - 3) word) as Hpre.
  { intros k Hk. unfold drop_last. apply substring_0_substring_0. lia. }
  destruct (simple_lemmatize_cases word)
    as [[_ [(_&?&->)|[(_&?&->)|[(_&?&->)|[(_&?&->)|(_&?&->)]]]]]|[_ ->]];
    rewrite ?len_append, ?len_drop_last; change (len "y") with 1.
  - split_and!; [lia|lia|].
    rewrite substring_0_append by (rewrite len_drop_last; lia). auto.
  - split_and!; [lia|lia|auto].
  - split_and!; [lia|lia|auto].
  - split_and!; [lia|lia|auto].
  - split_and!; [lia|lia|auto].
  - split_and!; [lia|lia|done].
Qed.

(** X7: the lemmatizer returns the empty string for two words only, the
    empty word and the word "es", which the second rule strips whole. *)
Theorem simple_lemmatize_empty (word : string) :
  _simple_lemmatize word = "" ↔ word = "" ∨ word = "es".
Proof.
  split; [|by intros [->| ->]].
  intros Hempty. pose proof (f_equal len Hempty) as Hlen. simpl in Hlen.
  destruct (simple_lemmatize_cases word)
    as [[_ [(He&?&Heq)|[(He&?&Heq)|[(He&?&Heq)|[(He&?&Heq)|(He&?&Heq)]]]]]
       |[_ Heq]];
    rewrite Heq, ?len_append, ?len_drop_last in Hlen; simpl in Hlen;
    try lia.
  - right. apply (endswith_whole _ _ He). simpl. lia.
  - left. by apply len_zero.
Qed.

(** X8: a word comes back unchanged exactly when none of the five rules
    applies to it; a rule that applies always shortens the word. *)
Theorem simple_lemmatize_fixed (word : string) :
  (_simple_lemmatize word = word ↔ some_rule_applies word = false)
  ∧ (some_rule_applies word = true →
     len (_simple_lemmatize word) < len word).
Proof.
  assert (some_rule_applies word = true →
          len (_simple_lemmatize word) < len word) as Hshort.
  { intros Happ.
    destruct (simple_lemmatize_cases word)
      as [[_ [(_&?&->)|[(_&?&->)|[(_&?&->)|[(_&?&->)|(_&?&->)]]]]]|[Hno _]];
      rewrite ?len_append, ?len_drop_last; simpl; try lia; congruence. }
  split; [|done]. split.
  - intros Heq. destruct (some_rule_applies word) eqn:Happ; [|done].
    specialize (Hshort eq_refl). rewrite Heq in Hshort. lia.
  - intros Hno. destruct (simple_lemmatize_cases word) as [[Happ _]|[_ ->]];
      [congruence|done].
Qed.

Lemma simple_lemmatize_fixed_witness :
  some_rule_applies "cities" = true
  ∧ len (_simple_lemmatize "cities") < len "cities".
Proof.
  split; [reflexivity|].
  exact (proj2 (simple_lemmatize_fixed "cities") eq_refl).
Defined.

(** X9: what reaches the stopword filter and the stemmer is made of
    lowercase ASCII letters only: every lemmatized token of a text is. *)
Theorem lemmatized_tokens_lowercase (raw_text : string) :
  Forall (λ t, forallb Char.is_lower (chars t) = true)
         (_simple_lemmatize <$> _tokenize raw_text).
Proof.
  apply Forall_fmap. eapply Forall_impl; [apply tokens_lowercase|].
  intros t [_ Hlow]. by apply simple_lemmatize_lowercase.
Qed.

(** ** The normalizer and the stopword list *)

Section StopwordFacts.
Variable stem : string → string.

Lemma process_tokens_app sw toks1 toks2 :
  _process_tokens sw stem (toks1 ++ toks2)
  = _process_tokens sw stem toks1 ++ _process_tokens sw stem toks2.
Proof. unfold _process_tokens. by rewrite fmap_app, filter_app, fmap_app. Qed.

(** X10: a longer stopword list only removes tokens: the normalized
    sequence under the longer list is a subsequence of the one under the
    shorter list. *)
Theorem process_tokens_more_stopwords (stopwords1 stopwords2 : list string)
    (toks : list string) :
  (∀ w, w ∈ stopwords1 → w ∈ stopwords2) →
  _process_tokens stopwords2 stem toks
    `sublist_of` _process_tokens stopwords1 stem toks.
Proof.
  intros Hsub. unfold _process_tokens. apply fmap_sublist.
  induction (_simple_lemmatize <$> toks) as [|t l IH]; [done|].
  rewrite !filter_cons.
  assert (t ∈ stop_words stopwords1 → t ∈ stop_words stopwords2) as Ht.
  { unfold stop_words. rewrite !elem_of_list_to_set. apply Hsub. }
  destruct (decide (t ∉ stop_words stopwords2 ∨ t ∈ preserved)) as [H2|H2];
    destruct (decide (t ∉ stop_words stopwords1 ∨ t ∈ preserved)) as [H1|H1].
  - by apply sublist_skip.
  - tauto.
  - by apply sublist_cons.
  - done.
Qed.

(** X11: the normalized sequence is as long as the token sequence exactly
    when no lemmatized token is a stopword outside the allow-list. *)
Theorem process_tokens_nothing_dropped (english_stopwords : list string)
    (toks : list string) :
  length (_process_tokens english_stopwords stem toks) = length toks
  ↔ Forall (λ t, _simple_lemmatize t ∉ stop_words english_stopwords
                 ∨ _simple_lemmatize t ∈ preserved) toks.
Proof.
  unfold _process_tokens. rewrite length_fmap.
  induction toks as [|t ts IH]; [by split|].
  cbn [fmap list_fmap]. rewrite filter_cons, Forall_cons.
  pose proof (length_filter
    (λ t, t ∉ stop_words english_stopwords ∨ t ∈ preserved)
    (_simple_lemmatize <$> ts)) as Hle.
  rewrite length_fmap in Hle.
  case_decide as Hkeep; simpl.
  - rewrite <- IH. split; [intros [= ?]; by split|intros [_ ->]; done].
  - split; [lia|tauto].
Qed.

End StopwordFacts.

Lemma process_tokens_more_stopwords_witness :
  (∀ w : string, w ∈ ["the"] → w ∈ ["the"; "a"])
  ∧ _process_tokens ["the"; "a"] (λ t, t) ["the"; "cat"; "a"; "hat"]
      `sublist_of` _process_tokens ["the"] (λ t, t) ["the"; "cat"; "a"; "hat"].
Proof.
  assert (∀ w : string, w ∈ ["the"] → w ∈ ["the"; "a"]) as Hsub.
  { intros w. rewrite !elem_of_cons. tauto. }
  split; [exact Hsub|].
  exact (process_tokens_more_stopwords (λ t, t) ["the"] ["the"; "a"]
           ["the"; "cat"; "a"; "hat"] Hsub).
Defined.

(** ** Counters of texts put together *)

Lemma occurrences_app {A} `{EqDecision A} (x : A) (l1 l2 : list A) :
  occurrences x (l1 ++ l2) = occurrences x l1 + occurrences x l2.
Proof. unfold occurrences. by rewrite filter_app, length_app. Qed.

(** X12: token counts add up: when two texts are joined by a character
    that is not a word character, every normalized token is counted in the
    whole as often as in the two parts together. *)
Theorem token_freq_of_joined_texts (english_stopwords : list string)
    (stem : string → string) (text1 text2 title : string) (c : ascii)
    (t : string) :
  Char.is_word c = false →
  count_of t (token_freq
    (__init__ english_stopwords stem (text1 +:+ String c text2) title))
  = count_of t (token_freq (__init__ english_stopwords stem text1 title))
    + count_of t (token_freq (__init__ english_stopwords stem text2 title)).
Proof.
  intros Hc. cbn [__init__ token_freq].
  rewrite !Counter_count_of, tokenize_sep, process_tokens_app by done.
  apply occurrences_app.
Qed.

Lemma token_freq_of_joined_texts_witness :
  Char.is_word " " = false
  ∧ count_of "cat" (token_freq
      (__init__ ["the"] (λ t, t) ("the cat" +:+ String " " "a cat") "doc"))
    = 2.
Proof.
  split; [reflexivity|].
  rewrite (token_freq_of_joined_texts ["the"] (λ t, t) "the cat" "a cat"
             "doc" " " "cat" eq_refl).
  reflexivity.
Defined.

(** ** Order of the keys *)

Section KeyOrder.
Context {K : Type} `{EqDecision K}.

Lemma keys_incr_order (k : K) (c : counter K) :
  keys (incr k c) = if decide (k ∈ keys c) then keys c else keys c ++ [k].
Proof.
  unfold keys. induction c as [|[k1 v] c IH].
  - cbn [incr fmap list_fmap]. by rewrite decide_False by apply not_elem_of_nil.
  - cbn [incr]. destruct (decide (k = k1)) as [->|Hne].
    + cbn [fmap list_fmap fst]. rewrite decide_True by left. done.
    + cbn [fmap list_fmap fst]. rewrite IH.
      destruct (decide (k ∈ fst <$> c)) as [Hin|Hout].
      * rewrite decide_True by (by right). done.
      * rewrite decide_False; [done|].
        intros [?|?]%elem_of_cons; done.
Qed.

Lemma Counter_snoc (l : list K) (x : K) :
  Counter (l ++ [x]) = incr x (Counter l).
Proof. unfold Counter. by rewrite foldl_snoc. Qed.

Lemma Counter_first_occurrences (l : list K) :
  keys (Counter l) = first_occurrences l.
Proof.
  unfold first_occurrences.
  induction l as [|x l IH] using rev_ind; [done|].
  rewrite Counter_snoc, keys_incr_order, reverse_snoc. cbn [remove_dups].
  rewrite IH.
  destruct (decide (x ∈ reverse (remove_dups (reverse l)))) as [Hin|Hout];
    rewrite elem_of_reverse, elem_of_remove_dups in *;
    destruct (decide_rel elem_of x (reverse l)) as [Hin'|Hout'];
    try done.
  by rewrite reverse_cons.
Qed.

End KeyOrder.

(** X13: the token frequency lists the normalized tokens in the order in
    which each first occurs in the normalized sequence, and the trigram
    frequency lists the trigrams in the order of their first window. *)
Theorem frequencies_in_first_occurrence_order
    (english_stopwords : list string) (stem : string → string)
    (text title : string) :
  let p := __init__ english_stopwords stem text title in
  keys (token_freq p) = first_occurrences (processed_tokens p)
  ∧ keys (trigram_freq p) = first_occurrences (windows 3 (processed_tokens p)).
Proof.
  intros p. split.
  - apply Counter_first_occurrences.
  - change (trigram_freq p) with (_compute_trigrams (processed_tokens p) 3).
    rewrite compute_trigrams_counts. apply Counter_first_occurrences.
Qed.

(** ** What [most_common] returns *)

Section MostCommonFacts.
Context {K : Type} `{EqDecision K}.
Implicit Types (c : counter K) (n m : Z).

Lemma most_common_exact_length n c :
  length (most_common n c) = min (Z.to_nat n) (length c).
Proof.
  rewrite most_common_sorted. destruct (Z.leb_spec n 0) as [Hn|Hn].
  - by replace (Z.to_nat n) with 0 by lia.
  - by rewrite length_take, sorted_desc_length.
Qed.

Lemma most_common_take n c :
  most_common n c = take (Z.to_nat n) (sorted_desc c).
Proof.
  rewrite most_common_sorted. destruct (Z.leb_spec n 0) as [Hn|Hn]; [|done].
  by replace (Z.to_nat n) with 0 by lia.
Qed.

#[local] Instance descending_order_trans :
  Transitive (λ a b : K * nat, b.2 ≤ a.2).
Proof. intros a b d ??. lia. Qed.

Lemma most_common_largest n c x y :
  x ∈ most_common n c → y ∈ c → y ∉ most_common n c → y.2 ≤ x.2.
Proof.
  rewrite most_common_take. intros Hx Hy Hny.
  pose proof (sorted_desc_descending c) as Hs.
  apply Sorted_StronglySorted in Hs; [|apply _].
  rewrite <- (take_drop (Z.to_nat n) (sorted_desc c)) in Hs.
  apply (StronglySorted_app_1_elem_of _ _ _ x y Hs Hx).
  rewrite <- sorted_desc_perm, <- (take_drop (Z.to_nat n) (sorted_desc c)) in Hy.
  apply elem_of_app in Hy as [?|?]; done.
Qed.

Lemma most_common_all n c :
  (Z.of_nat (length c) ≤ n)%Z → most_common n c ≡ₚ c.
Proof.
  intros Hn. rewrite most_common_take, take_ge by (rewrite sorted_desc_length; lia).
  apply sorted_desc_perm.
Qed.

Lemma insert_desc_same_count v (x : K * nat) c :
  filter (λ y, y.2 = v) (insert_desc x c) = filter (λ y, y.2 = v) (x :: c).
Proof.
  induction c as [|y c IH]; [done|]. cbn [insert_desc].
  destruct (Nat.ltb_spec x.2 y.2) as [Hlt|Hge]; [|done].
  rewrite (filter_cons _ y), IH, !filter_cons.
  repeat case_decide; try done; lia.
Qed.

Lemma sorted_desc_same_count v c :
  filter (λ y, y.2 = v) (sorted_desc c) = filter (λ y, y.2 = v) c.
Proof.
  induction c as [|x c IH]; [done|]. cbn [sorted_desc].
  by rewrite insert_desc_same_count, !filter_cons, IH.
Qed.

Lemma most_common_ties_prefix v n c :
  filter (λ y, y.2 = v) (most_common n c) `prefix_of` filter (λ y, y.2 = v) c.
Proof.
  rewrite most_common_take, <- (sorted_desc_same_count v c).
  rewrite <- (take_drop (Z.to_nat n) (sorted_desc c)) at 2.
  rewrite filter_app. by apply prefix_app_r.
Qed.

Lemma most_common_grows n m c :
  (n ≤ m)%Z → most_common n c `prefix_of` most_common m c.
Proof.
  intros Hnm. rewrite !most_common_take.
  replace (Z.to_nat n) with (min (Z.to_nat n) (Z.to_nat m)) by lia.
  rewrite <- take_take. apply prefix_take.
Qed.

End MostCommonFacts.

(** X14: for a bound [n >= 0] the accessors return exactly [min(n, d)]
    entries, [d] being the number of distinct keys of the frequency; for a
    negative bound they return none. *)
Theorem top_lists_exact_length (w : world) (n k : Z) :
  length (top_tokens n w).1
    = min (Z.to_nat n) (length (token_freq (self w)))
  ∧ length (top_trigrams k w).1
    = min (Z.to_nat k) (length (trigram_freq (self w))).
Proof. split; apply most_common_exact_length. Qed.

(** X15: the accessors return the entries of greatest count: no entry that
    is left out has a greater count than an entry that is returned; and a
    bound of at least the number of distinct keys returns every entry. *)
Theorem top_lists_are_largest (w : world) (n k : Z) :
  (∀ x y, x ∈ (top_tokens n w).1 → y ∈ token_freq (self w) →
          y ∉ (top_tokens n w).1 → y.2 ≤ x.2)
  ∧ (∀ x y, x ∈ (top_trigrams k w).1 → y ∈ trigram_freq (self w) →
            y ∉ (top_trigrams k w).1 → y.2 ≤ x.2)
  ∧ ((Z.of_nat (length (token_freq (self w))) ≤ n)%Z →
     (top_tokens n w).1 ≡ₚ token_freq (self w))
  ∧ ((Z.of_nat (length (trigram_freq (self w))) ≤ k)%Z →
     (top_trigrams k w).1 ≡ₚ trigram_freq (self w)).
Proof.
  split_and!.
  - apply most_common_largest.
  - apply most_common_largest.
  - apply most_common_all.
  - apply most_common_all.
Qed.

(** X16: ties are broken by the order of the frequency: among the entries
    of one count, those returned are the first ones of the frequency, in
    the same order. *)
Theorem top_lists_ties_in_order (w : world) (n k : Z) (v : nat) :
  filter (λ y, y.2 = v) (top_tokens n w).1
    `prefix_of` filter (λ y, y.2 = v) (token_freq (self w))
  ∧ filter (λ y, y.2 = v) (top_trigrams k w).1
    `prefix_of` filter (λ y, y.2 = v) (trigram_freq (self w)).
Proof. split; apply most_common_ties_prefix. Qed.

(** X17: a greater bound only extends the answer: the list returned for
    [n] is the start of the list returned for any [m >= n]. *)
Theorem top_lists_grow (w : world) (n m : Z) :
  (n ≤ m)%Z →
  (top_tokens n w).1 `prefix_of` (top_tokens m w).1
  ∧ (top_trigrams n w).1 `prefix_of` (top_trigrams m w).1.
Proof. intros Hnm. split; by apply most_common_grows. Qed.

Lemma top_lists_grow_witness :
  (2 ≤ 5)%Z
  ∧ (top_tokens 2 (after_init (__init__ [] (λ t, t) "a b a c b a" "doc"))).1
    `prefix_of`
    (top_tokens 5 (after_init (__init__ [] (λ t, t) "a b a c b a" "doc"))).1.
Proof.
  assert (2 ≤ 5)%Z as Hle by lia.
  split; [exact Hle|].
  exact (proj1 (top_lists_grow
    (after_init (__init__ [] (λ t, t) "a b a c b a" "doc")) 2 5 Hle)).
Defined.

(** ** Trigrams and tokens *)

(** X18: the two frequencies of a processor fit together: the trigram
    counts add up to the number of normalized tokens less two (zero for
    fewer than three tokens), and every component of every trigram is a
    key of the token frequency. *)
Theorem trigram_freq_fits_token_freq (english_stopwords : list string)
    (stem : string → string) (text title : string) :
  let p := __init__ english_stopwords stem text title in
  total (trigram_freq p) = length (processed_tokens p) - 2
  ∧ total (trigram_freq p) = total (token_freq p) - 2
  ∧ (∀ tri t, tri ∈ keys (trigram_freq p) → t ∈ tri →
              t ∈ keys (token_freq p)).
Proof.
  intros p.
  assert (trigram_freq p = Counter (windows 3 (processed_tokens p))) as Htri
    by apply compute_trigrams_counts.
  assert (total (trigram_freq p) = length (processed_tokens p) - 2) as Htotal.
  { rewrite Htri, Counter_total, windows_length. lia. }
  split_and!.
  - done.
  - rewrite Htotal. cbn [p __init__ token_freq processed_tokens].
    by rewrite Counter_total.
  - intros tri t Hin Ht. rewrite Htri in Hin.
    apply (proj1 (Counter_keys _ _)) in Hin. unfold windows in Hin.
    apply list_elem_of_fmap in Hin as (i & -> & _).
    apply Counter_keys. eapply subseteq_drop, subseteq_take, Ht.
Qed.

(** ** The console *)

Lemma for_each_print {A} (l : list A) (body : A → M unit) (line : A → string) w :
  (∀ x, body x = print (line x)) →
  for_each l body w = (tt, World (self w) (stdout w ++ (line <$> l))).
Proof.
  intros Hbody. revert w. induction l as [|x l IH]; intros [p out].
  - simpl. by rewrite app_nil_r.
  - cbn [for_each]. unfold mbind, M_bind. rewrite Hbody. unfold print.
    cbn [self stdout]. rewrite IH. cbn [self stdout fmap list_fmap].
    by rewrite <- app_assoc.
Qed.

Lemma summary_prints_report w :
  summary w = (tt, World (self w) (stdout w ++ report (self w))).
Proof.
  destruct w as [p out]. unfold summary, top_tokens, top_trigrams.
  unfold mbind, M_bind, mret, M_ret, read, print. cbn [self stdout].
  rewrite (for_each_print _ _ token_line) by (by intros []).
  cbn [self stdout].
  rewrite (for_each_print _ _ trigram_line) by (by intros []).
  cbn [self stdout]. unfold report. f_equal. f_equal.
  rewrite <- !app_assoc. done.
Qed.



Lemma run_call_prints c w :
  run_call c w = (tt, World (self w) (stdout w ++ printed (self w) c)).
Proof.
  destruct c; cbn [run_call printed].
  - destruct w. unfold top_tokens, mbind, M_bind, mret, M_ret, read. simpl.
    by rewrite app_nil_r.
  - destruct w. unfold top_trigrams, mbind, M_bind, mret, M_ret, read. simpl.
    by rewrite app_nil_r.
  - apply summary_prints_report.
Qed.

(** X20: the console after any sequence of calls: the accessors print
    nothing, every [summary] appends the same report, and nothing that was
    printed before is changed or removed. *)
Theorem calls_console (calls : list call) (w : world) :
  stdout (run_calls calls w).2
  = stdout w ++ concat (printed (self w) <$> calls).
Proof.
  unfold run_calls. revert w. induction calls as [|c cs IH]; intros w.
  - simpl. by rewrite app_nil_r.
  - cbn [for_each]. unfold mbind, M_bind. rewrite run_call_prints.
    rewrite IH. cbn [self stdout fmap list_fmap concat].
    by rewrite <- app_assoc.
Qed.

(** ** Tokenizer and entity extractor on texts put together *)

(** X1: tokenizing two texts joined by a character that is not a word
    character (a space, a newline, a full stop) gives the tokens of the
    first followed by the tokens of the second. *)
Theorem tokenize_joined_texts (text1 text2 : string) (c : ascii) :
  Char.is_word c = false →
  _tokenize (text1 +:+ String c text2) = _tokenize text1 ++ _tokenize text2.
Proof. apply tokenize_sep. Qed.

Lemma tokenize_joined_texts_witness :
  Char.is_word "." = false
  ∧ _tokenize ("It rained" +:+ String "." "Then it stopped")
    = ["it"; "rained"] ++ ["then"; "it"; "stopped"].
Proof.
  split; [reflexivity|].
  exact (tokenize_joined_texts "It rained" "Then it stopped" "." eq_refl).
Defined.

(** X2: the entities of two texts joined by a character that is not a word
    character are the entities of the first together with those of the
    second. *)
Theorem entities_of_joined_texts (text1 text2 : string) (c : ascii) :
  Char.is_word c = false →
  _extract_named_entities (text1 +:+ String c text2)
  = _extract_named_entities text1 ∪ _extract_named_entities text2.
Proof. apply extract_named_entities_sep. Qed.

Lemma entities_of_joined_texts_witness :
  Char.is_word " " = false
  ∧ _extract_named_entities ("In Verona" +:+ String " " "Romeo met Juliet")
    = _extract_named_entities "In Verona"
      ∪ _extract_named_entities "Romeo met Juliet".
Proof.
  split; [reflexivity|].
  exact (entities_of_joined_texts "In Verona" "Romeo met Juliet" " " eq_refl).
Defined.

(** X3: tokens read back as they are: joining the tokens of a text with
    single spaces and tokenizing the result gives the same tokens; and
    lowercasing a text beforehand changes nothing. *)
Theorem tokenize_round_trip (raw_text : string) :
  _tokenize (join " " (_tokenize raw_text)) = _tokenize raw_text
  ∧ _tokenize (lower raw_text) = _tokenize raw_text.
Proof.
  split.
  - apply tokenize_joined, tokens_lowercase.
  - unfold _tokenize. by rewrite lower_idem.
Qed.

(** X4: every entity is a non-empty word of ASCII letters that starts with
    an uppercase letter and is not blacklisted, and its lowercase form is
    one of the tokens of the text. *)
Theorem entity_shape (raw_text e : string) :
  e ∈ _extract_named_entities raw_text →
  e ≠ ""
  ∧ starts_upper (chars e) = true
  ∧ all_alpha (chars e) = true
  ∧ (e ∉ blacklist)
  ∧ (lower e ∈ _tokenize raw_text).
Proof.
  intros He. pose proof (entity_lower_is_token _ _ He) as Htok.
  apply entity_is_word in He as (Hbl & r & -> & Hcap & _).
  rewrite chars_of_chars. pose proof (capitalized_all_alpha _ Hcap) as Halpha.
  unfold capitalized in Hcap. apply andb_true_iff in Hcap as [Hup _].
  split_and!; try done. by destruct r.
Qed.

Lemma entity_shape_witness :
  "Verona" ∈ _extract_named_entities "In fair Verona"
  ∧ lower "Verona" ∈ _tokenize "In fair Verona".
Proof.
  assert ("Verona" ∈ _extract_named_entities "In fair Verona") as Hin
    by (apply (bool_decide_unpack _); by vm_compute).
  split; [exact Hin|].
  exact (proj2 (proj2 (proj2 (proj2
    (entity_shape "In fair Verona" "Verona" Hin))))).
Defined.

(** X5: a text never has more distinct entities than tokens. *)
Theorem entities_at_most_tokens (english_stopwords : list string)
    (stem : string → string) (text title : string) :
  let p := __init__ english_stopwords stem text title in
  size (named_entities p) ≤ length (tokens p).
Proof. intros p. apply entities_no_more_than_tokens. Qed.
